(** * boost.stl_interfaces: the fixed-capacity vector and the reversing adaptor

    A shallow embedding of [example/static_vector.hpp] and of
    [include/boost/stl_interfaces/reverse_iterator.hpp].

    The container owns [N] slots of raw storage.  A slot either holds a
    constructed object or it does not, so the buffer is a list of
    [option T]; a position ([T *]) is the index of a slot counted from
    [begin()].  Every member function is a function from the state before
    the call to an [outcome]: the state after it, a tripped [assert], or
    undefined behaviour (a read, assignment or destruction of a slot that
    holds no object, or an access outside the buffer).  Sizes are bounded by
    the length of in-memory ranges, so [size_t] arithmetic never reaches its
    modulus and is written on [nat].

    Elements are values.  A copy leaves its source as it is; a move hands
    the value over and leaves in the source an object of the value
    [moved x], for a function [moved] about which nothing is assumed.  The
    standard algorithms are their textbook loops.

    Member functions that take a second container ([operator=], [swap])
    receive a reference that may be the object itself, so they are written
    over a small store of two named objects. *)

From Stdlib Require Import ZArith Lia.
From stdpp Require Import base option list.

(** ** Outcomes of a call *)

Inductive outcome (A : Type) : Type :=
  | Ok (a : A)
  | AssertFail
  | UB.
Arguments Ok {A} a.
Arguments AssertFail {A}.
Arguments UB {A}.

#[global] Instance outcome_ret : MRet outcome := fun A a => Ok a.
#[global] Instance outcome_bind : MBind outcome := fun A B f m =>
  match m with
  | Ok a => f a
  | AssertFail => AssertFail
  | UB => UB
  end.
#[global] Instance outcome_fmap : FMap outcome := fun A B f m =>
  match m with
  | Ok a => Ok (f a)
  | AssertFail => AssertFail
  | UB => UB
  end.

(** [assert(b)] of <cassert>, as in a build without NDEBUG. *)
Definition assert (b : bool) : outcome unit :=
  if b then Ok tt else AssertFail.

(** ** Raw storage and the standard algorithms the container calls *)

Module Storage.

(** A slot of storage for a [T]: the object it holds, if any. *)
Abbreviation cell T := (option T) (only parsing).

Section storage.
Context {T : Type}.
(** What a move leaves in its source: still an object, of some value. *)
Variable moved : T → T.

(** Slot [i] of the buffer holds an object. *)
Definition live (b : list (cell T)) (i : nat) : Prop := ∃ x, b !! i = Some (Some x).

(** [*p] for reading. *)
Definition read (b : list (cell T)) (p : nat) : outcome T :=
  match b !! p with
  | Some (Some x) => Ok x
  | _ => UB
  end.

(** [new (p) T(x)]: storage must exist at [p]; what was there is
    overwritten without a destructor call. *)
Definition construct_at (b : list (cell T)) (p : nat) (x : T) : outcome (list (cell T)) :=
  if decide (p < length b) then Ok (<[p := Some x]> b) else UB.

(** [*p = x] (copy assignment): an object must live at [p]. *)
Definition assign_at (b : list (cell T)) (p : nat) (x : T) : outcome (list (cell T)) :=
  match b !! p with
  | Some (Some _) => Ok (<[p := Some x]> b)
  | _ => UB
  end.

(** [p->~T()]. *)
Definition destroy_at (b : list (cell T)) (p : nat) : outcome (list (cell T)) :=
  match b !! p with
  | Some (Some _) => Ok (<[p := None]> b)
  | _ => UB
  end.

(** The move assignment of the object in slot [s] to the object in slot
    [d] of one buffer: the source is left in its moved-from state, then the
    target receives the value (so that a self-move keeps the value, as for
    the arithmetic types). *)
Definition move_assign (b : list (cell T)) (s d : nat) : outcome (list (cell T)) :=
  match b !! s, b !! d with
  | Some (Some x), Some (Some _) =>
      Ok (<[d := Some x]> (<[s := Some (moved x)]> b))
  | _, _ => UB
  end.

(** The loop of [std::move(first, last, d_first)], [n] elements left:
    [d_first] receives the object moved from [first], both step up. *)
Fixpoint move_loop (n first d_first : nat) (b : list (cell T)) : outcome (list (cell T)) :=
  match n with
  | 0 => Ok b
  | S n' => b' ← move_assign b first d_first; move_loop n' (S first) (S d_first) b'
  end.

(** [std::move(first, last, d_first)]; returns the end of the target. *)
Definition std_move (b : list (cell T)) (first last d_first : nat)
  : outcome (list (cell T) * nat) :=
  if decide (first ≤ last) then
    b' ← move_loop (last - first) first d_first b;
    Ok (b', d_first + (last - first))
  else UB.

(** The loop of [std::move_backward(first, last, d_last)], [n] elements
    left: both step down, then [d_last] receives the object moved from
    [last]. *)
Fixpoint move_backward_loop (n last d_last : nat) (b : list (cell T))
  : outcome (list (cell T)) :=
  match n with
  | 0 => Ok b
  | S n' =>
      match last, d_last with
      | S last', S d_last' =>
          b' ← move_assign b last' d_last';
          move_backward_loop n' last' d_last' b'
      | _, _ => UB
      end
  end.

Definition std_move_backward (b : list (cell T)) (first last d_last : nat)
  : outcome (list (cell T)) :=
  if decide (first ≤ last) then move_backward_loop (last - first) last d_last b
  else UB.

(** [std::copy(first, last, p)] from a range outside the buffer, given by
    its elements. *)
Fixpoint std_copy (src : list T) (p : nat) (b : list (cell T)) : outcome (list (cell T)) :=
  match src with
  | [] => Ok b
  | x :: src' => b' ← assign_at b p x; std_copy src' (S p) b'
  end.

(** [std::uninitialized_fill_n(p, n, x)]. *)
Fixpoint uninitialized_fill_n (n p : nat) (x : T) (b : list (cell T))
  : outcome (list (cell T)) :=
  match n with
  | 0 => Ok b
  | S n' => b' ← construct_at b p x; uninitialized_fill_n n' (S p) x b'
  end.

(** [std::uninitialized_fill(first, last, x)]. *)
Definition uninitialized_fill (b : list (cell T)) (first last : nat) (x : T)
  : outcome (list (cell T)) :=
  if decide (first ≤ last) then uninitialized_fill_n (last - first) first x b
  else UB.

(** [for (; it != end_; ++it) it->~T();], [n] elements left. *)
Fixpoint destroy_loop (n it : nat) (b : list (cell T)) : outcome (list (cell T)) :=
  match n with
  | 0 => Ok b
  | S n' => b' ← destroy_at b it; destroy_loop n' (S it) b'
  end.

Definition destroy_range (b : list (cell T)) (it end_ : nat) : outcome (list (cell T)) :=
  if decide (it ≤ end_) then destroy_loop (end_ - it) it b else UB.

(** Reading the elements of [[first, first + n)] (a source range that
    lies in a container). *)
Fixpoint read_range (n first : nat) (b : list (cell T)) : outcome (list T) :=
  match n with
  | 0 => Ok []
  | S n' => x ← read b first; xs ← read_range n' (S first) b; Ok (x :: xs)
  end.

End storage.
End Storage.

(** ** [static_vector<T, N>] *)

Module StaticVector.
Import Storage.
Section static_vector.
Context {T : Type}.
(** The capacity, a template parameter. *)
Variable N : nat.
(** [T()], the value-initialised element. *)
Variable T_default : T.
Variable moved : T → T.
(** [operator==] and [operator<] of [T]. *)
Variable T_eq T_lt : T → T → bool.

(** [buf_] and [size_]. *)
Record static_vector : Type := mk_static_vector {
  buf_ : list (cell T);
  size_ : nat
}.

Definition begin (v : static_vector) : nat := 0.
Definition end_ (v : static_vector) : nat := size_ v.
Definition max_size (v : static_vector) : nat := N.
Definition capacity (v : static_vector) : nat := N.

(** Modelled from the spec: [container_interface.hpp] is not among the
    sources; the members it supplies ([size], [cend], [back],
    [operator[]], the unary [resize], [clear], [assign]) are derived from
    the primitives the container defines, as section 4.1 and 4.3 of the
    specification and the comments of [static_vector.hpp] say.
    [size()] is the distance from [begin()] to [end()]. *)
Definition size (v : static_vector) : nat := end_ v - begin v.

(** Modelled from the spec: [cend()] is [end()] on a const container. *)
Definition cend (v : static_vector) : nat := end_ v.

(** Modelled from the spec: [operator[]] refers to the slot [i] places
    after [begin()], unchecked. *)
Definition subscript (v : static_vector) (i : nat) : nat := begin v + i.

(** Modelled from the spec: [back()] reads the slot before [end()]. *)
Definition back (v : static_vector) : outcome T :=
  match end_ v with
  | 0 => UB
  | S p => read (buf_ v) p
  end.

(** Lines 164 to 167 of [emplace]: the placement new, the conditional
    increment of [size_] and the returned position. *)
Definition emplace_construct (v : static_vector) (position : nat) (x : T)
    (insert_before_end : bool) : outcome (static_vector * nat) :=
  b ← construct_at (buf_ v) position x;
  Ok (mk_static_vector b (if insert_before_end then size_ v else S (size_ v)),
      position).

(** [emplace_back(x)] is [emplace(end(), x)], where [position < end()] is
    false: only the last lines of [emplace] run.  (Written apart because
    [emplace] calls it; [emplace_at_end] below shows the two agree.) *)
Definition emplace_back (v : static_vector) (x : T)
  : outcome (static_vector * nat) :=
  emplace_construct v (end_ v) x false.

(** [emplace(pos, x)].  In [emplace_back(std::move(this->back()))] the new
    last element is move-constructed from the old one, which is left
    moved-from. *)
Definition emplace (v : static_vector) (pos : nat) (x : T)
  : outcome (static_vector * nat) :=
  let position := pos in
  let insert_before_end := bool_decide (position < end_ v) in
  v1 ← (if insert_before_end then
          let last := end_ v in
          x_back ← back v;
          let v0 := mk_static_vector
                      (<[last - 1 := Some (moved x_back)]> (buf_ v)) (size_ v) in
          '(v', _) ← emplace_back v0 x_back;
          b ← std_move_backward moved (buf_ v') position (last - 1) last;
          Ok (mk_static_vector b (size_ v'))
        else Ok v);
  emplace_construct v1 position x insert_before_end.

(** [insert(pos, first, last)]; the source range is given by its
    elements [rng]. *)
Definition insert (v : static_vector) (pos : nat) (rng : list T)
  : outcome (static_vector * nat) :=
  let position := pos in
  let insertions := length rng in
  _ ← assert (bool_decide (size v + insertions < capacity v));
  b1 ← uninitialized_fill_n insertions (end_ v) T_default (buf_ v);
  b2 ← std_move_backward moved b1 position (end_ v) (end_ v + insertions);
  b3 ← std_copy rng position b2;
  Ok (mk_static_vector b3 (size_ v + insertions), position).

(** [erase(f, last)]. *)
Definition erase (v : static_vector) (f last : nat)
  : outcome (static_vector * nat) :=
  let first := f in
  let end_0 := cend v in
  '(b1, it) ← std_move moved (buf_ v) last end_0 first;
  b2 ← destroy_range b1 it end_0;
  Ok (mk_static_vector b2 (size_ v - (last - first)), first).

(** [resize(sz, x)]. *)
Definition resize (v : static_vector) (sz : nat) (x : T) : outcome static_vector :=
  _ ← assert (bool_decide (sz < capacity v));
  v1 ← (if bool_decide (sz < size v)
        then fst <$> erase v (begin v + sz) (end_ v) else Ok v);
  v2 ← (if bool_decide (size v1 < sz)
        then b ← uninitialized_fill (buf_ v1) (end_ v1) (begin v1 + sz) x;
             Ok (mk_static_vector b (size_ v1))
        else Ok v1);
  Ok (mk_static_vector (buf_ v2) sz).

(** [reserve(n)]. *)
Definition reserve (v : static_vector) (n : nat) : outcome static_vector :=
  _ ← assert (bool_decide (n < capacity v)); Ok v.

(** Modelled from the spec: the unary [resize(n)] of
    [container_interface] calls the container's [resize(n, T())]. *)
Definition resize_default (v : static_vector) (n : nat) : outcome static_vector :=
  resize v n T_default.

(** Modelled from the spec: [clear()] of [container_interface] erases
    [[begin(), end())]. *)
Definition clear (v : static_vector) : outcome static_vector :=
  fst <$> erase v (begin v) (end_ v).

(** Modelled from the spec: [assign(first, last)] of
    [container_interface] replaces the content by the range, through the
    container's own [erase] and [insert]. *)
Definition assign (v : static_vector) (rng : list T) : outcome static_vector :=
  v' ← clear v; fst <$> insert v' (begin v') rng.

(** Modelled from the spec: [assign(n, x)] assigns [n] copies of [x]. *)
Definition assign_n (v : static_vector) (n : nat) (x : T) : outcome static_vector :=
  assign v (replicate n x).

(** *** Constructors *)

(** The storage of a new object: no slot holds an object. *)
Definition raw_storage : list (cell T) := replicate N None.

Definition ctor_default : static_vector := mk_static_vector raw_storage 0.
Definition ctor_count (n : nat) : outcome static_vector :=
  assign_n ctor_default n T_default.
Definition ctor_count_value (n : nat) (x : T) : outcome static_vector :=
  assign_n ctor_default n x.
Definition ctor_range (rng : list T) : outcome static_vector :=
  assign ctor_default rng.
Definition ctor_initializer_list (il : list T) : outcome static_vector :=
  ctor_range il.
Definition ctor_copy (other : static_vector) : outcome static_vector :=
  rng ← read_range (end_ other - begin other) (begin other) (buf_ other);
  assign ctor_default rng.

(** [for (; it != last; ++it) dst.emplace_back(std::move of the object at
    it)], [n] elements left; [it] points into [src]. *)
Fixpoint move_each (n it : nat) (src dst : static_vector)
  : outcome (static_vector * static_vector) :=
  match n with
  | 0 => Ok (src, dst)
  | S n' =>
      x ← read (buf_ src) it;
      let src' := mk_static_vector (<[it := Some (moved x)]> (buf_ src)) (size_ src) in
      '(dst', _) ← emplace_back dst x;
      move_each n' (S it) src' dst'
  end.

(** The move constructor; returns the new object and what is left of
    [other]. *)
Definition ctor_move (other : static_vector) : outcome (static_vector * static_vector) :=
  '(other1, this1) ← move_each (end_ other - begin other) (begin other)
                               other ctor_default;
  other2 ← clear other1;
  Ok (this1, other2).

(** *** Assignment, with the two operands possibly the same object *)

Inductive obj : Type := ObjA | ObjB.
#[global] Instance obj_eq_dec : EqDecision obj.
Proof. solve_decision. Defined.

Record world : Type := mk_world { objA : static_vector; objB : static_vector }.

Definition get (w : world) (o : obj) : static_vector :=
  match o with ObjA => objA w | ObjB => objB w end.
Definition set (w : world) (o : obj) (v : static_vector) : world :=
  match o with
  | ObjA => mk_world v (objB w)
  | ObjB => mk_world (objA w) v
  end.

(** Writing slot [i] of the object [o]. *)
Definition set_cell (w : world) (o : obj) (i : nat) (c : cell T) : world :=
  set w o (mk_static_vector (<[i := c]> (buf_ (get w o))) (size_ (get w o))).

(** [this = other] (copy): [other.begin()] and [other.end()] are taken
    after [this->clear()]. *)
Definition operator_assign_copy (w : world) (this other : obj) : outcome world :=
  v ← clear (get w this);
  let w1 := set w this v in
  let o := get w1 other in
  rng ← read_range (end_ o - begin o) (begin o) (buf_ o);
  v' ← assign (get w1 this) rng;
  Ok (set w1 this v').

(** [for (; it != last; ++it) this->emplace_back(std::move of the object
    at it)], [n] elements left; [it] points into [other]. *)
Fixpoint move_each_in (n it : nat) (w : world) (this other : obj) : outcome world :=
  match n with
  | 0 => Ok w
  | S n' =>
      x ← read (buf_ (get w other)) it;
      let w1 := set_cell w other it (Some (moved x)) in
      '(t, _) ← emplace_back (get w1 this) x;
      move_each_in n' (S it) (set w1 this t) this other
  end.

(** [this = std::move(other)]. *)
Definition operator_assign_move (w : world) (this other : obj) : outcome world :=
  v ← clear (get w this);
  let w1 := set w this v in
  let o := get w1 other in
  w2 ← move_each_in (end_ o - begin o) (begin o) w1 this other;
  o' ← clear (get w2 other);
  Ok (set w2 other o').

(** *** [swap] *)

(** [std::minmax(a, b)]. *)
Definition minmax (a b : nat) : nat * nat :=
  if bool_decide (b < a) then (b, a) else (a, b).

(** [std::swap(x, y)] for [x] in slot [i] of [a] and [y] in slot [j] of
    [b]: [T tmp(std::move(x)); x = std::move(y); y = std::move(tmp);]. *)
Definition std_swap (w : world) (a b : obj) (i j : nat) : outcome world :=
  x ← read (buf_ (get w a)) i;
  let w1 := set_cell w a i (Some (moved x)) in
  y ← read (buf_ (get w1 b)) j;
  let w2 := set_cell w1 b j (Some (moved y)) in
  ba ← assign_at (buf_ (get w2 a)) i y;
  let w3 := set w2 a (mk_static_vector ba (size_ (get w2 a))) in
  bb ← assign_at (buf_ (get w3 b)) j x;
  Ok (set w3 b (mk_static_vector bb (size_ (get w3 b)))).

(** [for (i = ...; i < short_size; ++i) swap(this[i], other[i])], [n]
    rounds left. *)
Fixpoint swap_loop (n i : nat) (w : world) (this other : obj) : outcome world :=
  match n with
  | 0 => Ok w
  | S n' =>
      w' ← std_swap w this other (subscript (get w this) i)
                                 (subscript (get w other) i);
      swap_loop n' (S i) w' this other
  end.

(** [this->swap(other)]; [longer] and [shorter] point to [this] or to
    [other]. *)
Definition swap (w : world) (this other : obj) : outcome world :=
  let '(short_size, long_size) := minmax (size (get w this)) (size (get w other)) in
  w1 ← swap_loop short_size 0 w this other;
  let other_is_longer := bool_decide (size (get w1 this) < size (get w1 other)) in
  let longer := if other_is_longer then other else this in
  let shorter := if other_is_longer then this else other in
  w2 ← move_each_in (end_ (get w1 longer) - (begin (get w1 longer) + short_size))
                    (begin (get w1 longer) + short_size) w1 shorter longer;
  longer2 ← resize_default (get w2 longer) short_size;
  let w3 := set w2 longer longer2 in
  Ok (set w3 shorter (mk_static_vector (buf_ (get w3 shorter)) long_size)).

(** [swap] read off for two distinct objects, on their two states
    ([swap_distinct] below shows that it is [swap] then). *)
Definition std_swap_pair (ba bb : list (cell T)) (i j : nat)
  : outcome (list (cell T) * list (cell T)) :=
  x ← read ba i;
  let ba1 := <[i := Some (moved x)]> ba in
  y ← read bb j;
  ba2 ← assign_at ba1 i y;
  let bb1 := <[j := Some (moved y)]> bb in
  bb2 ← assign_at bb1 j x;
  Ok (ba2, bb2).

Fixpoint swap_loop_pair (n i : nat) (this other : static_vector)
  : outcome (static_vector * static_vector) :=
  match n with
  | 0 => Ok (this, other)
  | S n' =>
      '(ba, bb) ← std_swap_pair (buf_ this) (buf_ other)
                                (subscript this i) (subscript other i);
      swap_loop_pair n' (S i) (mk_static_vector ba (size_ this))
                              (mk_static_vector bb (size_ other))
  end.

Definition swap_pair (this other : static_vector)
  : outcome (static_vector * static_vector) :=
  let '(short_size, long_size) := minmax (size this) (size other) in
  '(this1, other1) ← swap_loop_pair short_size 0 this other;
  let other_is_longer := bool_decide (size this1 < size other1) in
  let longer := if other_is_longer then other1 else this1 in
  let shorter := if other_is_longer then this1 else other1 in
  '(longer1, shorter1) ←
    move_each (end_ longer - (begin longer + short_size))
              (begin longer + short_size) longer shorter;
  longer2 ← resize_default longer1 short_size;
  let shorter2 := mk_static_vector (buf_ shorter1) long_size in
  Ok (if other_is_longer then (shorter2, longer2) else (longer2, shorter2)).

(** *** Comparisons *)

(** The loop of [std::equal], [n] elements left. *)
Fixpoint equal_loop (n i j : nat) (ba bb : list (cell T)) : outcome bool :=
  match n with
  | 0 => Ok true
  | S n' =>
      x ← read ba i; y ← read bb j;
      if T_eq x y then equal_loop n' (S i) (S j) ba bb else Ok false
  end.

(** [std::equal(first1, last1, first2, last2)] on pointers: the two
    distances are compared first. *)
Definition std_equal (ba : list (cell T)) (first1 last1 : nat)
    (bb : list (cell T)) (first2 last2 : nat) : outcome bool :=
  if bool_decide (last1 - first1 = last2 - first2)
  then equal_loop (last1 - first1) first1 first2 ba bb
  else Ok false.

Definition operator_eq (lhs rhs : static_vector) : outcome bool :=
  if bool_decide (size lhs = size rhs)
  then std_equal (buf_ lhs) (begin lhs) (end_ lhs) (buf_ rhs) (begin rhs) (end_ rhs)
  else Ok false.

(** [std::mismatch(first1, last1, first2, last2)]: [n] is the distance
    from [first1] to [last1]. *)
Fixpoint std_mismatch (n first1 first2 last2 : nat) (ba bb : list (cell T))
  : outcome (nat * nat) :=
  match n with
  | 0 => Ok (first1, first2)
  | S n' =>
      if bool_decide (first2 = last2) then Ok (first1, first2)
      else
        x ← read ba first1; y ← read bb first2;
        if T_eq x y then std_mismatch n' (S first1) (S first2) last2 ba bb
        else Ok (first1, first2)
  end.

Definition operator_lt (lhs rhs : static_vector) : outcome bool :=
  iters ← std_mismatch (end_ lhs - begin lhs) (begin lhs) (begin rhs) (end_ rhs)
                       (buf_ lhs) (buf_ rhs);
  if bool_decide (iters.2 = end_ rhs) then Ok false
  else if bool_decide (iters.1 = end_ lhs) then Ok true
  else x ← read (buf_ lhs) iters.1; y ← read (buf_ rhs) iters.2; Ok (T_lt x y).

(** Following the specification's words, on the element lists: equality
    is "size-then-elementwise equality". *)
Fixpoint pairwise_eq (xs ys : list T) : bool :=
  match xs, ys with
  | [], [] => true
  | x :: xs', y :: ys' => T_eq x y && pairwise_eq xs' ys'
  | _, _ => false
  end.

Definition spec_eq (xs ys : list T) : bool :=
  bool_decide (length xs = length ys) && pairwise_eq xs ys.

(** Following the specification's words: less-than is lexicographic with
    the three-way tie-break: false when the right range is exhausted first
    (or both are), true when the left range is exhausted first, else the
    first differing pair decides. *)
Fixpoint spec_lt (xs ys : list T) : bool :=
  match xs, ys with
  | _, [] => false
  | [], _ :: _ => true
  | x :: xs', y :: ys' => if T_eq x y then spec_lt xs' ys' else T_lt x y
  end.

(** *** The class invariant and the abstract content *)

(** [size_ <= N]; slots [[0, size_)] hold objects, slots [[size_, N)] do
    not. *)
Definition invariant (v : static_vector) : Prop :=
  size_ v ≤ N ∧ length (buf_ v) = N ∧
  ∀ i, i < N → (i < size_ v ↔ ∃ x, buf_ v !! i = Some (Some x)).

(** The container whose elements are [xs], in order. *)
Definition of_list (xs : list T) : static_vector :=
  mk_static_vector ((Some <$> xs) ++ replicate (N - length xs) None) (length xs).

(** The elements of a container, when its first [size_] slots hold
    objects. *)
Definition contents (v : static_vector) : option (list T) :=
  mapM id (take (size_ v) (buf_ v)).

(** *** Calls on the objects of a world *)

(** The constructors and the members that change the size.  A constructor
    call names the object it brings to life. *)
Inductive call : Type :=
  | DefaultCtor (o : obj)
  | CountCtor (o : obj) (n : nat)
  | CountValueCtor (o : obj) (n : nat) (x : T)
  | RangeCtor (o : obj) (rng : list T)
  | InitializerListCtor (o : obj) (il : list T)
  | CopyCtor (o other : obj)
  | MoveCtor (o other : obj)
  | CopyAssign (this other : obj)
  | MoveAssign (this other : obj)
  | Emplace (o : obj) (pos : nat) (x : T)
  | EmplaceBack (o : obj) (x : T)
  | Insert (o : obj) (pos : nat) (rng : list T)
  | Erase (o : obj) (f last : nat)
  | Resize (o : obj) (sz : nat) (x : T)
  | Clear (o : obj)
  | Swap (this other : obj).

Definition run (c : call) (w : world) : outcome world :=
  match c with
  | DefaultCtor o => Ok (set w o ctor_default)
  | CountCtor o n => v ← ctor_count n; Ok (set w o v)
  | CountValueCtor o n x => v ← ctor_count_value n x; Ok (set w o v)
  | RangeCtor o rng => v ← ctor_range rng; Ok (set w o v)
  | InitializerListCtor o il => v ← ctor_initializer_list il; Ok (set w o v)
  | CopyCtor o other => v ← ctor_copy (get w other); Ok (set w o v)
  | MoveCtor o other =>
      '(v, other') ← ctor_move (get w other); Ok (set (set w other other') o v)
  | CopyAssign this other => operator_assign_copy w this other
  | MoveAssign this other => operator_assign_move w this other
  | Emplace o pos x => '(v, _) ← emplace (get w o) pos x; Ok (set w o v)
  | EmplaceBack o x => '(v, _) ← emplace_back (get w o) x; Ok (set w o v)
  | Insert o pos rng => '(v, _) ← insert (get w o) pos rng; Ok (set w o v)
  | Erase o f last => '(v, _) ← erase (get w o) f last; Ok (set w o v)
  | Resize o sz x => v ← resize (get w o) sz x; Ok (set w o v)
  | Clear o => v ← clear (get w o); Ok (set w o v)
  | Swap this other => swap w this other
  end.

(** The precondition of a call: the element count it asks for is within
    the capacity, its positions are in range, and a copy or move constructor
    is given another object. *)
Definition precondition (c : call) (w : world) : Prop :=
  match c with
  | DefaultCtor _ => True
  | CountCtor _ n | CountValueCtor _ n _ => n ≤ N
  | RangeCtor _ rng | InitializerListCtor _ rng => length rng ≤ N
  | CopyCtor o other | MoveCtor o other => o ≠ other
  | CopyAssign _ _ | MoveAssign _ _ => True
  | Emplace o pos _ => size (get w o) < N ∧ pos ≤ size (get w o)
  | EmplaceBack o _ => size (get w o) < N
  | Insert o pos rng => pos ≤ size (get w o) ∧ size (get w o) + length rng ≤ N
  | Erase o f last => f ≤ last ≤ size (get w o)
  | Resize _ sz _ => sz ≤ N
  | Clear _ | Swap _ _ => True
  end.

(** The element count that a call hands to the assertion of [insert] or
    of [resize] is the capacity itself. *)
Definition fills_capacity (c : call) (w : world) : Prop :=
  match c with
  | CountCtor _ n | CountValueCtor _ n _ => n = N
  | RangeCtor _ rng | InitializerListCtor _ rng => length rng = N
  | CopyCtor _ other => size (get w other) = N
  | CopyAssign this other =>
      (if decide (this = other) then 0 else size (get w other)) = N
  | Insert o _ rng => size (get w o) + length rng = N
  | Resize _ sz _ => sz = N
  | Swap this other => size (get w this) `min` size (get w other) = N
  | _ => False
  end.

Definition world_invariant (w : world) : Prop :=
  invariant (objA w) ∧ invariant (objB w).

(** The worlds a program can get to: two default-constructed containers,
    then any calls made within their preconditions that return. *)
Inductive reachable : world → Prop :=
  | reachable_init : reachable (mk_world ctor_default ctor_default)
  | reachable_step c w w' :
      reachable w → precondition c w → run c w = Ok w' → reachable w'.

End static_vector.
End StaticVector.

(** ** [reverse_iterator<BidiIter>] *)

Module ReverseIterator.

(** What the adaptor asks of the position it wraps: [++it], [--it], [*it]
    ([None] where the position cannot be dereferenced) and [it1 == it2]. *)
Class BidiIter (I E : Type) : Type := {
  incr : I → I;
  decr : I → I;
  deref : I → option E;
  iter_eq : I → I → bool
}.

(** A bidirectional position steps back over what it stepped forward, and
    forward over what it stepped back. *)
Class BidiIterLaws (I E : Type) `{BidiIter I E} : Prop := {
  decr_incr : ∀ i : I, decr (incr i) = i;
  incr_decr : ∀ i : I, incr (decr i) = i
}.

(** *** Exception specifications

    A member of a class template is instantiated where a program uses it,
    and its exception specification with it.  The operand of [noexcept] is
    not evaluated, but it has to be a well-formed expression: a call in it
    needs a function that its arguments can be passed to. *)

(** The value category of an argument. *)
Inductive value_category : Type := lvalue | xvalue | prvalue.

(** How a function takes an argument: by value, or by reference to a
    non-const lvalue. *)
Inductive parameter : Type := by_value | by_lvalue_reference.

(** Anything initialises a parameter taken by value; a reference to a
    non-const lvalue binds to an lvalue only. *)
Definition binds (p : parameter) (c : value_category) : bool :=
  match p, c with
  | by_value, _ => true
  | by_lvalue_reference, lvalue => true
  | by_lvalue_reference, _ => false
  end.

(** A call is well-formed when every parameter has its argument and every
    argument binds to its parameter. *)
Fixpoint call_well_formed (ps : list parameter) (cs : list value_category) : bool :=
  match ps, cs with
  | [], [] => true
  | p :: ps', c :: cs' => binds p c && call_well_formed ps' cs'
  | _, _ => false
  end.

(** [std::declval<X>()] is declared to return [X &&]: for an object type
    [X] the call is an xvalue. *)
Definition std_declval : value_category := xvalue.

(** [std::prev(BidiIt it)] takes the position by value and returns the
    stepped copy; [std::advance(InputIt & it, Distance n)] takes the
    position by reference and steps it in place. *)
Definition std_prev_parameters : list parameter := [by_value].
Definition std_advance_parameters : list parameter := [by_lvalue_reference; by_value].

(** The exception specification of [operator*]:
    [noexcept(noexcept(std::prev(std::declval<BidiIter>())))]. *)
Definition operator_star_noexcept : bool :=
  call_well_formed std_prev_parameters [std_declval].

(** The exception specification of [operator+=]:
    [noexcept(noexcept(std::advance(std::declval<BidiIter>(), -n)))]; the
    second argument [-n] is a prvalue. *)
Definition operator_plus_assign_noexcept : bool :=
  call_well_formed std_advance_parameters [std_declval; prvalue].

(** What the use of a member in a program comes to: the program is
    ill-formed and is not translated, or the member is instantiated and
    the call runs. *)
Inductive translated (A : Type) : Type :=
  | IllFormed
  | Instantiated (a : A).
Arguments IllFormed {A}.
Arguments Instantiated {A} a.

(** *** [difference_type]

    A signed integer type of [w] bits, from [difference_min w] to
    [difference_max w]. *)
Definition difference_min (w : nat) : Z := (- 2 ^ (Z.of_nat w - 1))%Z.
Definition difference_max (w : nat) : Z := (2 ^ (Z.of_nat w - 1) - 1)%Z.

(** [-n] in [difference_type]: a result that the type cannot represent is
    undefined behaviour (signed overflow); that is the case at the least
    value. *)
Definition negate (w : nat) (n : Z) : outcome Z :=
  if bool_decide (difference_min w ≤ - n ≤ difference_max w)%Z then Ok (- n)%Z
  else UB.

Section reverse_iterator.
Context {I E : Type} `{BidiIter I E}.

(** [std::prev(it)]: a copy of [it], stepped back once. *)
Definition std_prev (it : I) : I := decr it.

(** [std::advance(it, n)]: [n] steps forward, or [-n] steps back. *)
Definition std_advance (it : I) (n : Z) : I :=
  if bool_decide (0 ≤ n)%Z then Nat.iter (Z.to_nat n) incr it
  else Nat.iter (Z.to_nat (- n)) decr it.

Record reverse_iterator : Type := mk_reverse_iterator { it_ : I }.

(** [make_reverse_iterator(it)], the converting constructor. *)
Definition make_reverse_iterator (it : I) : reverse_iterator :=
  mk_reverse_iterator it.

(** [operator*]. *)
Definition operator_star (r : reverse_iterator) : option E :=
  deref (std_prev (it_ r)).

(** The body of [operator+=]: [std::advance(it_, -n); return *this;],
    with [n] of the [difference_type] of [w] bits. *)
Definition operator_plus_assign_body (w : nat) (r : reverse_iterator) (n : Z)
  : outcome reverse_iterator :=
  m ← negate w n; Ok (mk_reverse_iterator (std_advance (it_ r) m)).

(** [operator+=]: where a program uses it, the exception specification is
    instantiated first; the body runs only in a program that is
    well-formed. *)
Definition operator_plus_assign (w : nat) (r : reverse_iterator) (n : Z)
  : translated (outcome reverse_iterator) :=
  if operator_plus_assign_noexcept
  then Instantiated (operator_plus_assign_body w r n)
  else IllFormed.

Definition base_reference (r : reverse_iterator) : I := it_ r.

End reverse_iterator.
Arguments reverse_iterator I : clear implicits.

(** Modelled from the spec: [iterator_interface] is not among the sources.
    By sections 4.1 and 4.2 of the specification it derives [++] and [--]
    from the adaptor's advance-by-n, as [r += 1] and [r += -1]. *)
Definition operator_increment {I E : Type} `{BidiIter I E}
    (w : nat) (r : reverse_iterator I) : translated (outcome (reverse_iterator I)) :=
  operator_plus_assign w r 1.
Definition operator_decrement {I E : Type} `{BidiIter I E}
    (w : nat) (r : reverse_iterator I) : translated (outcome (reverse_iterator I)) :=
  operator_plus_assign w r (-1).

(** Modelled from the spec: the adaptor as a position of its own, by what
    the bodies of its members do once they are instantiated.  By sections
    4.1 and 4.2 of the specification [++] is [r += 1], whose body advances
    the wrapped position by [-1], and [--] is [r += -1], whose body
    advances it by [1]; dereference is the adaptor's own, and equality is
    that of the wrapped positions.  Whether a program may use [++] and
    [--] at all is what [operator_increment] and [operator_decrement]
    say. *)
#[global] Instance reverse_iterator_bidi {I E : Type} `{BidiIter I E}
  : BidiIter (reverse_iterator I) E := {|
  incr r := mk_reverse_iterator (std_advance (it_ r) (- 1));
  decr r := mk_reverse_iterator (std_advance (it_ r) (- -1));
  deref r := operator_star r;
  iter_eq r1 r2 := iter_eq (base_reference r1) (base_reference r2)
|}.

(** [for (; first != last; ++first) out.push_back( *first );]: the elements
    met on the way from [first] to [last]; [None] when a position on the way
    cannot be dereferenced or [last] is not met within [fuel] steps. *)
Fixpoint traverse {I E : Type} `{BidiIter I E} (fuel : nat) (first last : I)
  : option (list E) :=
  if iter_eq first last then Some []
  else match fuel with
       | 0 => None
       | S fuel' =>
           x ← deref first;
           xs ← traverse fuel' (incr first) last;
           Some (x :: xs)
       end.

(** A position of a sequence: a pointer into the array that holds its
    elements, [idx] slots after the first. *)
Record seq_pos (E : Type) : Type := mk_seq_pos { pos_seq : list E; idx : Z }.
Arguments mk_seq_pos {E} pos_seq idx.
Arguments pos_seq {E} s.
Arguments idx {E} s.

#[global] Instance seq_pos_bidi {E : Type} : BidiIter (seq_pos E) E := {|
  incr p := mk_seq_pos (pos_seq p) (idx p + 1);
  decr p := mk_seq_pos (pos_seq p) (idx p - 1);
  deref p := if bool_decide (0 ≤ idx p)%Z then pos_seq p !! Z.to_nat (idx p) else None;
  iter_eq p q := bool_decide (idx p = idx q)
|}.

Definition seq_begin {E : Type} (S : list E) : seq_pos E := mk_seq_pos S 0.
Definition seq_end {E : Type} (S : list E) : seq_pos E :=
  mk_seq_pos S (Z.of_nat (length S)).

(** [rbegin = reverse(S.end())] and [rend = reverse(S.begin())]. *)
Definition rbegin {E : Type} (S : list E) : reverse_iterator (seq_pos E) :=
  make_reverse_iterator (seq_end S).
Definition rend {E : Type} (S : list E) : reverse_iterator (seq_pos E) :=
  make_reverse_iterator (seq_begin S).

End ReverseIterator.


(** * Properties *)

(** ** The storage algorithms, slot by slot *)

Ltac case_lookup :=
  repeat (rewrite ?list_lookup_insert, ?length_insert in * );
  repeat (case_decide; rewrite ?length_insert in * );
  try lia; try done.

Lemma lookup_cons_decide {A} (x : A) (l : list A) i :
  (x :: l) !! i = if decide (i = 0) then Some x else l !! (i - 1).
Proof. destruct i as [|i]; simpl; [done|]. by rewrite Nat.sub_0_r. Qed.

Lemma lookup_replicate_decide {A} (x : A) n i :
  replicate n x !! i = if decide (i < n) then Some x else None.
Proof.
  case_decide; [by apply lookup_replicate_2|].
  apply lookup_ge_None_2. rewrite length_replicate. lia.
Qed.

Lemma lookup_app_decide {A} (l1 l2 : list A) i :
  (l1 ++ l2) !! i = if decide (i < length l1) then l1 !! i else l2 !! (i - length l1).
Proof. case_decide; [by apply lookup_app_l|apply lookup_app_r; lia]. Qed.

(** Case analysis on a decidable proposition [P], every [bool_decide P]
    replaced by its value. *)
Ltac case_bd P H :=
  destruct (decide P) as [H|H];
  [ rewrite ?(bool_decide_true P) by exact H
  | rewrite ?(bool_decide_false P) by exact H ].

Ltac list_lengths :=
  repeat (progress (rewrite ?length_app, ?length_take, ?length_drop, ?length_fmap,
    ?length_replicate, ?length_insert, ?length_cons in * ));
  simpl in *; lia.

Ltac lookup_out_of_range :=
  repeat match goal with
  | |- context [ ?l !! ?i ] => rewrite (lookup_ge_None_2 l i) by list_lengths
  end.

(** Closes an equation between slot contents once every lookup is spelled
    out by cases on the index. *)
Ltac lookup_solve :=
  repeat (progress (rewrite ?lookup_app_decide, ?lookup_take, ?lookup_drop,
    ?list_lookup_fmap, ?lookup_cons_decide, ?lookup_replicate_decide,
    ?length_app, ?length_take, ?length_drop, ?length_fmap, ?length_replicate,
    ?length_cons));
  repeat case_decide;
  try done; try lia;
  simpl;
  first [ solve [ repeat (first [ lia | f_equal ]) ]
        | solve [ lookup_out_of_range; done ]
        | idtac ].

Section storage_facts.
Import Storage.
Context {T : Type} (moved : T → T).
Implicit Types b : list (cell T).

Lemma live_insert_eq b i x : i < length b → live (<[i := Some x]> b) i.
Proof. intros ?. exists x. by apply list_lookup_insert_eq. Qed.

Lemma live_insert_ne b i j c : i ≠ j → live (<[i := c]> b) j ↔ live b j.
Proof. intros ?. unfold live. by rewrite list_lookup_insert_ne. Qed.

Lemma live_lt b i : live b i → i < length b.
Proof. intros [x ?]. by eapply lookup_lt_Some. Qed.

Lemma move_assign_live b s d x :
  b !! s = Some (Some x) → live b d →
  move_assign moved b s d = Ok (<[d := Some x]> (<[s := Some (moved x)]> b)).
Proof. intros Hs [y Hd]. unfold move_assign. by rewrite Hs, Hd. Qed.

(** [std::move] to the left (or onto itself): the target range receives
    the source range, what is left of the source range is moved-from, and
    nothing else changes. *)
Lemma move_loop_spec n first d b :
  d ≤ first →
  (∀ i, first ≤ i < first + n → live b i) →
  (∀ i, d ≤ i < d + n → live b i) →
  ∃ b', move_loop moved n first d b = Ok b' ∧ length b' = length b ∧
    ∀ i, b' !! i =
      if decide (d ≤ i < d + n) then b !! (i + (first - d))
      else if decide (first ≤ i < first + n) then fmap moved <$> b !! i
      else b !! i.
Proof.
  revert first d b. induction n as [|n IH]; intros first d b Hle Hsrc Hdst.
  { exists b. split_and!; [done..|]. intros i. case_lookup. }
  destruct (Hsrc first) as [x Hx]; [lia|].
  assert (Hd : live b d) by (apply Hdst; lia).
  simpl. rewrite (move_assign_live _ _ _ x) by done. simpl.
  pose proof (live_lt _ _ Hd) as Hdl.
  pose proof (lookup_lt_Some _ _ _ Hx) as Hfl.
  destruct (IH (S first) (S d) (<[d := Some x]> (<[first := Some (moved x)]> b)))
    as (b' & -> & Hlen & Hb'); [lia| | |].
  - intros i Hi. apply live_insert_ne; [lia|]. apply live_insert_ne; [lia|].
    apply Hsrc. lia.
  - intros i Hi. apply live_insert_ne; [lia|].
    destruct (decide (first = i)) as [->|].
    + apply live_insert_eq. done.
    + apply live_insert_ne; [done|]. apply Hdst. lia.
  - exists b'. split_and!; [done|by rewrite Hlen, !length_insert|].
    intros i. rewrite Hb'. 
    destruct (decide (i = d)) as [->|Hid].
    { case_lookup. replace (d + (first - d)) with first by lia. done. }
    case_lookup; try (f_equal; lia).
    destruct_and!; subst. by rewrite Hx.
Qed.

(** [std::move_backward] to the right (or onto itself). *)
Lemma move_backward_loop_spec n last d_last b :
  n ≤ last → last ≤ d_last →
  (∀ i, last - n ≤ i < last → live b i) →
  (∀ i, d_last - n ≤ i < d_last → live b i) →
  ∃ b', move_backward_loop moved n last d_last b = Ok b' ∧ length b' = length b ∧
    ∀ i, b' !! i =
      if decide (d_last - n ≤ i < d_last) then b !! (i - (d_last - last))
      else if decide (last - n ≤ i < last) then fmap moved <$> b !! i
      else b !! i.
Proof.
  revert last d_last b. induction n as [|n IH]; intros last d_last b Hn Hle Hsrc Hdst.
  { exists b. split_and!; [done..|]. intros i. case_lookup. }
  destruct last as [|l]; [lia|]. destruct d_last as [|d]; [lia|].
  destruct (Hsrc l) as [x Hx]; [lia|].
  assert (Hd : live b d) by (apply Hdst; lia).
  simpl. rewrite (move_assign_live _ _ _ x) by done. simpl.
  pose proof (live_lt _ _ Hd) as Hdl.
  pose proof (lookup_lt_Some _ _ _ Hx) as Hfl.
  destruct (IH l d (<[d := Some x]> (<[l := Some (moved x)]> b)))
    as (b' & -> & Hlen & Hb'); [lia|lia| | |].
  - intros i Hi. apply live_insert_ne; [lia|]. apply live_insert_ne; [lia|].
    apply Hsrc. lia.
  - intros i Hi. apply live_insert_ne; [lia|].
    destruct (decide (l = i)) as [->|].
    + by apply live_insert_eq.
    + apply live_insert_ne; [done|]. apply Hdst. lia.
  - exists b'. split_and!; [done|by rewrite Hlen, !length_insert|].
    intros i. rewrite Hb'.
    destruct (decide (i = d)) as [->|Hid].
    { case_lookup. rewrite <- Hx. f_equal. lia. }
    case_lookup; try (f_equal; lia).
    destruct_and!; subst. by rewrite Hx.
Qed.

Lemma std_copy_spec src p b :
  (∀ i, p ≤ i < p + length src → live b i) →
  ∃ b', std_copy src p b = Ok b' ∧ length b' = length b ∧
    ∀ i, b' !! i =
      if decide (p ≤ i < p + length src) then Some (src !! (i - p)) else b !! i.
Proof.
  revert p b. induction src as [|x src IH]; intros p b Hlive.
  { exists b. split_and!; [done..|]. intros i. simpl. case_lookup. }
  destruct (Hlive p) as [y Hy]; [simpl; lia|].
  pose proof (lookup_lt_Some _ _ _ Hy) as Hpl.
  simpl. unfold assign_at. rewrite Hy. simpl.
  destruct (IH (S p) (<[p := Some x]> b)) as (b' & -> & Hlen & Hb').
  - intros i Hi. apply live_insert_ne; [lia|]. apply Hlive. simpl. lia.
  - exists b'. split_and!; [done|by rewrite Hlen, length_insert|].
    intros i. rewrite Hb'. simpl.
    destruct (decide (i = p)) as [->|Hip].
    { case_lookup. by rewrite Nat.sub_diag. }
    case_lookup. replace (i - p) with (S (i - S p)) by lia. done.
Qed.

Lemma uninitialized_fill_n_spec n p x b :
  p + n ≤ length b →
  ∃ b', uninitialized_fill_n n p x b = Ok b' ∧ length b' = length b ∧
    ∀ i, b' !! i = if decide (p ≤ i < p + n) then Some (Some x) else b !! i.
Proof.
  revert p b. induction n as [|n IH]; intros p b Hlen.
  { exists b. split_and!; [done..|]. intros i. case_lookup. }
  simpl. unfold construct_at. rewrite decide_True by lia. simpl.
  destruct (IH (S p) (<[p := Some x]> b)) as (b' & -> & Hlen' & Hb').
  { rewrite length_insert. lia. }
  exists b'. split_and!; [done|by rewrite Hlen', length_insert|].
  intros i. rewrite Hb'. case_lookup.
Qed.

Lemma destroy_loop_spec n it b :
  (∀ i, it ≤ i < it + n → live b i) →
  ∃ b', destroy_loop n it b = Ok b' ∧ length b' = length b ∧
    ∀ i, b' !! i = if decide (it ≤ i < it + n) then Some None else b !! i.
Proof.
  revert it b. induction n as [|n IH]; intros it b Hlive.
  { exists b. split_and!; [done..|]. intros i. case_lookup. }
  destruct (Hlive it) as [y Hy]; [lia|].
  pose proof (lookup_lt_Some _ _ _ Hy) as Hpl.
  simpl. unfold destroy_at. rewrite Hy. simpl.
  destruct (IH (S it) (<[it := None]> b)) as (b' & -> & Hlen & Hb').
  - intros i Hi. apply live_insert_ne; [lia|]. apply Hlive. lia.
  - exists b'. split_and!; [done|by rewrite Hlen, length_insert|].
    intros i. rewrite Hb'. case_lookup.
Qed.

Lemma read_range_spec (xs : list T) first b :
  (∀ i, i < length xs → b !! (first + i) = Some (xs !! i)) →
  read_range (length xs) first b = Ok xs.
Proof.
  revert first. induction xs as [|x xs IH]; intros first Hb; [done|].
  simpl. unfold read. rewrite <- (Nat.add_0_r first) at 1.
  rewrite (Hb 0) by (simpl; lia). simpl.
  rewrite IH; [done|]. intros i Hi.
  replace (S first + i) with (first + S i) by lia. apply (Hb (S i)). simpl. lia.
Qed.

End storage_facts.

(** ** The container *)

Section static_vector_facts.
Import Storage StaticVector.
Context {T : Type} (N : nat) (T_default : T) (moved : T → T).
Implicit Types (v : @static_vector T) (xs ys : list T).

Lemma size_of_list xs : size_ (of_list N xs) = length xs.
Proof. done. Qed.

Lemma of_list_length xs : length xs ≤ N → length (buf_ (of_list N xs)) = N.
Proof.
  intros ?. unfold of_list. simpl.
  rewrite length_app, length_fmap, length_replicate. lia.
Qed.

Lemma of_list_lookup xs i :
  length xs ≤ N →
  buf_ (of_list N xs) !! i = if decide (i < N) then Some (xs !! i) else None.
Proof.
  intros ?. unfold of_list. simpl.
  rewrite lookup_app, list_lookup_fmap, length_fmap.
  destruct (xs !! i) as [x|] eqn:Hx; simpl.
  - apply lookup_lt_Some in Hx. by rewrite decide_True by lia.
  - apply lookup_ge_None_1 in Hx. case_decide.
    + apply lookup_replicate_2. lia.
    + apply lookup_ge_None_2. rewrite length_replicate. lia.
Qed.

(** A state is [of_list xs] as soon as its slots agree with [xs]. *)
Lemma of_list_ext v xs :
  length xs ≤ N → size_ v = length xs →
  (∀ i, buf_ v !! i = if decide (i < N) then Some (xs !! i) else None) →
  v = of_list N xs.
Proof.
  intros Hlen Hsz Hb. destruct v as [b s]. simpl in *. subst s.
  unfold of_list. f_equal. apply list_eq. intros i.
  rewrite Hb. symmetry. by apply (of_list_lookup xs i).
Qed.

Lemma of_list_live xs i : length xs ≤ N → i < length xs → live (buf_ (of_list N xs)) i.
Proof.
  intros ? Hi. destruct (lookup_lt_is_Some_2 xs i Hi) as [x Hx].
  exists x. rewrite of_list_lookup, decide_True by lia. by rewrite Hx.
Qed.

Lemma of_list_eta xs n :
  n = length xs → mk_static_vector (buf_ (of_list N xs)) n = of_list N xs.
Proof. by intros ->. Qed.

Lemma ctor_default_of_list : ctor_default N = of_list N (@nil T).
Proof. unfold ctor_default, raw_storage, of_list. simpl. by rewrite Nat.sub_0_r. Qed.

(** *** The invariant, through [of_list] *)

Lemma invariant_of_list xs : length xs ≤ N → invariant N (of_list N xs).
Proof.
  intros HN. split_and!; [done|by apply of_list_length|].
  intros i Hi. rewrite of_list_lookup, decide_True by done. simpl. split.
  - intros [x Hx]%lookup_lt_is_Some_2. exists x. by rewrite Hx.
  - intros [x Hx]. simplify_eq. by eapply lookup_lt_Some.
Qed.

Lemma live_prefix_list (b : list (option T)) s :
  (∀ i, i < s → live b i) →
  ∃ xs, length xs = s ∧ ∀ i, i < s → b !! i = Some (xs !! i).
Proof.
  induction s as [|s IH]; intros Hlive.
  { exists []. split; [done|]. intros i Hi. lia. }
  destruct IH as (xs & Hlen & Hxs); [intros i Hi; apply Hlive; lia|].
  destruct (Hlive s) as [x Hx]; [lia|].
  exists (xs ++ [x]). split; [list_lengths|].
  intros i Hi. destruct (decide (i = s)) as [->|].
  - rewrite Hx. f_equal. symmetry. by apply list_lookup_middle.
  - rewrite lookup_app_l by lia. apply Hxs. lia.
Qed.

Lemma invariant_inv v :
  invariant N v → ∃ xs, length xs ≤ N ∧ v = of_list N xs.
Proof.
  intros (Hsz & Hlen & Hcells).
  destruct (live_prefix_list (buf_ v) (size_ v)) as (xs & Hxl & Hxs).
  { intros i Hi. apply Hcells; lia. }
  exists xs. split; [lia|]. apply of_list_ext; [lia|done|].
  intros i. case_decide as Hi; [|apply lookup_ge_None_2; lia].
  destruct (decide (i < size_ v)) as [Hlt|Hge]; [by apply Hxs|].
  rewrite (lookup_ge_None_2 xs) by lia.
  destruct (lookup_lt_is_Some_2 (buf_ v) i) as [c Hc]; [lia|].
  rewrite Hc. f_equal. destruct c as [x|]; [|done].
  exfalso. apply Hge, Hcells; [done|]. by exists x.
Qed.

Lemma invariant_iff v :
  invariant N v ↔ ∃ xs, length xs ≤ N ∧ v = of_list N xs.
Proof.
  split; [apply invariant_inv|]. intros (xs & ? & ->). by apply invariant_of_list.
Qed.

Lemma contents_of_list xs : length xs ≤ N → contents (of_list N xs) = Some xs.
Proof.
  intros HN. unfold contents, of_list. simpl.
  rewrite take_app_length' by (by rewrite length_fmap).
  clear HN. induction xs as [|x xs IH]; [done|].
  rewrite fmap_cons. cbn. by rewrite IH.
Qed.

Opaque of_list.

Lemma erase_of_list xs f l :
  length xs ≤ N → f ≤ l ≤ length xs →
  erase moved (of_list N xs) f l = Ok (of_list N (take f xs ++ drop l xs), f).
Proof.
  intros HN Hfl. unfold erase, cend, end_, std_move. rewrite !size_of_list.
  rewrite decide_True by lia.
  destruct (move_loop_spec moved (length xs - l) l f (buf_ (of_list N xs)))
    as (b1 & Hmv & Hlen1 & Hb1); [lia|..].
  { intros i Hi. apply of_list_live; lia. }
  { intros i Hi. apply of_list_live; lia. }
  rewrite Hmv. simpl. unfold destroy_range.
  rewrite decide_True by lia.
  destruct (destroy_loop_spec (length xs - (f + (length xs - l)))
              (f + (length xs - l)) b1) as (b2 & -> & Hlen2 & Hb2).
  { intros i Hi. unfold live. rewrite Hb1.
    pose proof (of_list_live xs i HN) as [x Hx]; [lia|].
    repeat case_decide; try lia; rewrite Hx; by eexists. }
  simpl. f_equal. f_equal. apply of_list_ext; simpl.
  - rewrite length_app, length_take, length_drop. lia.
  - rewrite length_app, length_take, length_drop. lia.
  - intros i. rewrite Hb2, Hb1, !of_list_lookup by done.
    lookup_solve.
Qed.

Lemma back_of_list xs s x :
  length xs ≤ N → length xs = S s → xs !! s = Some x →
  back (of_list N xs) = Ok x.
Proof.
  intros HN Hs Hx. unfold back, end_.
  change (size_ (of_list N xs)) with (length xs). rewrite Hs.
  unfold read. rewrite of_list_lookup, decide_True by lia. by rewrite Hx.
Qed.

Lemma emplace_back_of_list xs x :
  length xs < N →
  emplace_back (of_list N xs) x = Ok (of_list N (xs ++ [x]), length xs).
Proof.
  intros HN. unfold emplace_back, emplace_construct, construct_at, end_.
  rewrite !size_of_list.
  rewrite decide_True by (rewrite of_list_length; simpl; lia).
  simpl. do 2 f_equal. apply of_list_ext; simpl.
  - list_lengths.
  - list_lengths.
  - intros i.
    rewrite list_lookup_insert, of_list_length, of_list_lookup by lia.
    lookup_solve.
Qed.

(** [emplace] on a container with room left, at any position up to
    [end()]. *)
Lemma emplace_of_list xs p x :
  length xs < N → p ≤ length xs →
  emplace moved (of_list N xs) p x
  = Ok (of_list N (take p xs ++ x :: drop p xs), p).
Proof.
  intros HN Hp. unfold emplace, end_. rewrite !size_of_list.
  case_bool_decide as Hlt.
  - destruct (lookup_lt_is_Some_2 xs (length xs - 1)) as [xb Hxb]; [lia|].
    rewrite (back_of_list xs (length xs - 1) xb) by (done || lia).
    simpl. unfold emplace_back, emplace_construct, construct_at, end_. simpl.
    rewrite ?size_of_list.
    rewrite decide_True by (rewrite length_insert, of_list_length; lia).
    simpl. unfold std_move_backward. rewrite decide_True by lia.
    set (b2 := <[length xs := Some xb]> (<[length xs - 1 := Some (moved xb)]>
                 (buf_ (of_list N xs)))).
    assert (Hb2 : ∀ i, i ≤ length xs → live b2 i).
    { intros i Hi. unfold live, b2.
      rewrite !list_lookup_insert, !length_insert, of_list_length, of_list_lookup by lia.
      destruct (decide (i = length xs)) as [->|].
      { rewrite decide_True by lia. by eexists. }
      destruct (lookup_lt_is_Some_2 xs i) as [y Hy]; [lia|].
      rewrite Hy. repeat case_decide; try lia; by eexists. }
    destruct (move_backward_loop_spec moved (length xs - 1 - p) (length xs - 1)
                (length xs) b2) as (b3 & -> & Hlen3 & Hb3); [lia|lia|..].
    { intros i Hi. apply Hb2. lia. }
    { intros i Hi. apply Hb2. lia. }
    simpl. rewrite decide_True
      by (rewrite Hlen3; unfold b2; rewrite !length_insert, of_list_length; lia).
    simpl. do 2 f_equal. apply of_list_ext; simpl.
    + list_lengths.
    + list_lengths.
    + intros i. rewrite list_lookup_insert, Hlen3, Hb3. unfold b2.
      rewrite !list_lookup_insert, !length_insert, of_list_length by lia.
      rewrite !of_list_lookup by lia. rewrite <- Hxb.
      lookup_solve.
  - assert (p = length xs) as -> by lia.
    rewrite take_ge, drop_ge by lia. simpl.
    apply emplace_back_of_list. lia.
Qed.

(** [insert]: the range lands at [p] when the assertion lets it through,
    and the assertion is [size() + insertions < capacity()]. *)
Lemma insert_of_list xs p ys :
  length xs ≤ N → p ≤ length xs →
  insert N T_default moved (of_list N xs) p ys
  = if bool_decide (length xs + length ys < N)
    then Ok (of_list N (take p xs ++ ys ++ drop p xs), p)
    else AssertFail.
Proof.
  intros HN Hp. unfold insert, size, capacity, begin, end_.
  rewrite !size_of_list, Nat.sub_0_r.
  case_bool_decide as Hroom; [|done]. simpl.
  destruct (uninitialized_fill_n_spec (length ys) (length xs) T_default
              (buf_ (of_list N xs))) as (b1 & -> & Hlen1 & Hb1).
  { rewrite of_list_length; lia. }
  simpl. unfold std_move_backward. rewrite decide_True by lia.
  assert (Hlive1 : ∀ i, i < length xs + length ys → live b1 i).
  { intros i Hi. unfold live. rewrite Hb1, of_list_lookup by lia.
    case_decide; [by eexists|].
    destruct (lookup_lt_is_Some_2 xs i) as [y Hy]; [lia|].
    rewrite Hy, decide_True by lia. by eexists. }
  destruct (move_backward_loop_spec moved (length xs - p) (length xs)
              (length xs + length ys) b1) as (b2 & -> & Hlen2 & Hb2); [lia|lia|..].
  { intros i Hi. apply Hlive1. lia. }
  { intros i Hi. apply Hlive1. lia. }
  simpl.
  destruct (std_copy_spec ys p b2) as (b3 & -> & Hlen3 & Hb3).
  { intros i Hi. unfold live. rewrite Hb2.
    destruct (Hlive1 i) as [y Hy]; [lia|].
    destruct (Hlive1 (i - (length xs + length ys - length xs))) as [z Hz]; [lia|].
    repeat case_decide; rewrite ?Hy, ?Hz; by eexists. }
  simpl. do 2 f_equal. apply of_list_ext; simpl.
  - list_lengths.
  - list_lengths.
  - intros i. rewrite Hb3, Hb2, !Hb1, !of_list_lookup by lia.
    lookup_solve.
Qed.

(** [resize]: the assertion is [sz < capacity()]; past it the container
    is cut to [sz] elements or filled up to [sz] with copies of [x]. *)
Lemma resize_of_list xs sz x :
  length xs ≤ N →
  resize N moved (of_list N xs) sz x
  = if bool_decide (sz < N)
    then Ok (of_list N (take sz xs ++ replicate (sz - length xs) x))
    else AssertFail.
Proof.
  intros HN. unfold resize, size, capacity, begin, end_.
  rewrite !size_of_list, Nat.sub_0_r.
  case_bd (sz < N) Hsz; [|done]. simpl.
  case_bd (sz < length xs) Hshrink.
  - rewrite erase_of_list by lia. simpl. rewrite size_of_list.
    rewrite drop_all, app_nil_r, Nat.sub_0_r, length_take_le by lia.
    rewrite bool_decide_false by lia. simpl.
    replace (sz - length xs) with 0 by lia. simpl. rewrite app_nil_r.
    f_equal. apply of_list_eta. rewrite length_take_le; lia.
  - simpl. rewrite size_of_list, Nat.sub_0_r, take_ge by lia.
    case_bd (length xs < sz) Hgrow; simpl.
    + unfold uninitialized_fill. rewrite decide_True by lia.
      destruct (uninitialized_fill_n_spec (sz - length xs) (length xs) x
                  (buf_ (of_list N xs))) as (b1 & -> & Hlen1 & Hb1).
      { rewrite of_list_length; lia. }
      simpl. f_equal. apply of_list_ext; simpl.
      * list_lengths.
      * list_lengths.
      * intros i. rewrite Hb1, of_list_lookup by lia. lookup_solve.
    + assert (sz = length xs) as -> by lia.
      rewrite Nat.sub_diag. simpl. by rewrite app_nil_r.
Qed.

Lemma clear_of_list xs :
  length xs ≤ N → clear moved (of_list N xs) = Ok (of_list N []).
Proof.
  intros HN. unfold clear, begin, end_. rewrite size_of_list.
  rewrite erase_of_list by lia. simpl. by rewrite drop_all.
Qed.

Lemma assign_of_list xs ys :
  length xs ≤ N →
  assign N T_default moved (of_list N xs) ys
  = if bool_decide (length ys < N) then Ok (of_list N ys) else AssertFail.
Proof.
  intros HN. unfold assign. rewrite clear_of_list by done. simpl.
  unfold begin. rewrite insert_of_list by (simpl; lia). simpl.
  case_bool_decide; [|done]. simpl. by rewrite app_nil_r.
Qed.

Lemma ctor_range_eq ys :
  ctor_range N T_default moved ys
  = if bool_decide (length ys < N) then Ok (of_list N ys) else AssertFail.
Proof.
  unfold ctor_range. rewrite ctor_default_of_list.
  apply assign_of_list. simpl. lia.
Qed.

Lemma ctor_count_value_eq n x :
  ctor_count_value N T_default moved n x
  = if bool_decide (n < N) then Ok (of_list N (replicate n x)) else AssertFail.
Proof.
  unfold ctor_count_value, assign_n. rewrite ctor_default_of_list.
  rewrite assign_of_list by (simpl; lia). by rewrite length_replicate.
Qed.

Lemma read_range_of_list xs :
  length xs ≤ N → read_range (length xs) 0 (buf_ (of_list N xs)) = Ok xs.
Proof.
  intros HN. apply read_range_spec. intros i Hi. simpl.
  rewrite of_list_lookup, decide_True by lia. done.
Qed.

Lemma ctor_copy_eq xs :
  length xs ≤ N →
  ctor_copy N T_default moved (of_list N xs)
  = if bool_decide (length xs < N) then Ok (of_list N xs) else AssertFail.
Proof.
  intros HN. unfold ctor_copy, begin, end_. rewrite size_of_list, Nat.sub_0_r.
  rewrite read_range_of_list by done. simpl. apply ctor_range_eq.
Qed.

(** The loop that moves the elements from [it] on out of one container
    and appends them to another. *)
Lemma move_each_spec zs it (src : static_vector) ys :
  length ys + length zs ≤ N →
  (∀ i, i < length zs → buf_ src !! (it + i) = Some (zs !! i)) →
  ∃ b', move_each moved (length zs) it src (of_list N ys)
        = Ok (mk_static_vector b' (size_ src), of_list N (ys ++ zs)) ∧
    length b' = length (buf_ src) ∧
    ∀ i, b' !! i =
      if decide (it ≤ i < it + length zs) then fmap moved <$> buf_ src !! i
      else buf_ src !! i.
Proof.
  revert it src ys. induction zs as [|z zs IH]; intros it src ys HN Hsrc.
  { exists (buf_ src). simpl. rewrite app_nil_r. destruct src.
    split_and!; [done..|]. intros i. case_lookup. }
  pose proof (Hsrc 0) as H0. rewrite Nat.add_0_r in H0. simpl in H0.
  specialize (H0 ltac:(lia)).
  simpl. unfold read. rewrite H0. simpl.
  rewrite emplace_back_of_list by (simpl in HN; lia). simpl.
  destruct (IH (S it)
              (mk_static_vector (<[it := Some (moved z)]> (buf_ src)) (size_ src))
              (ys ++ [z])) as (b' & -> & Hlen & Hb').
  { simpl in *. list_lengths. }
  { intros i Hi. simpl. rewrite list_lookup_insert_ne by lia.
    replace (S (it + i)) with (it + S i) by lia. apply (Hsrc (S i)). simpl. lia. }
  exists b'. simpl in *. rewrite <- app_assoc. simpl.
  split_and!; [done|by rewrite Hlen, length_insert|].
  intros i. rewrite Hb'. pose proof (lookup_lt_Some _ _ _ H0).
  case_lookup. destruct_and!; subst. by rewrite H0.
Qed.

(** Moving out the tail of a container, from [it] to [end()]. *)
Lemma move_each_of_list xs it ys :
  length xs ≤ N → it ≤ length xs → length ys + (length xs - it) ≤ N →
  move_each moved (length xs - it) it (of_list N xs) (of_list N ys)
  = Ok (of_list N (take it xs ++ (moved <$> drop it xs)), of_list N (ys ++ drop it xs)).
Proof.
  intros HN Hit Hroom.
  destruct (move_each_spec (drop it xs) it (of_list N xs) ys)
    as (b' & Heq & Hlen & Hb').
  { list_lengths. }
  { intros i Hi. rewrite of_list_lookup, decide_True, lookup_drop by list_lengths.
    done. }
  rewrite length_drop in Heq. rewrite Heq. do 2 f_equal.
  apply of_list_ext; simpl.
  - list_lengths.
  - rewrite size_of_list. list_lengths.
  - intros i. rewrite Hb', !of_list_lookup by done. lookup_solve.
Qed.

Lemma ctor_move_eq xs :
  length xs ≤ N →
  ctor_move N moved (of_list N xs) = Ok (of_list N xs, of_list N []).
Proof.
  intros HN. unfold ctor_move, begin, end_.
  rewrite size_of_list, ctor_default_of_list.
  rewrite move_each_of_list by (simpl; lia). simpl.
  rewrite clear_of_list by list_lengths. simpl. by rewrite drop_0.
Qed.

(** The element-wise part of [swap]: the slots [[i, i + n)] of the two
    buffers change places. *)
Lemma swap_loop_pair_spec n i (a b : static_vector) :
  (∀ j, i ≤ j < i + n → live (buf_ a) j ∧ live (buf_ b) j) →
  ∃ ba bb,
    swap_loop_pair moved n i a b
    = Ok (mk_static_vector ba (size_ a), mk_static_vector bb (size_ b)) ∧
    length ba = length (buf_ a) ∧ length bb = length (buf_ b) ∧
    (∀ j, ba !! j = if decide (i ≤ j < i + n) then buf_ b !! j else buf_ a !! j) ∧
    (∀ j, bb !! j = if decide (i ≤ j < i + n) then buf_ a !! j else buf_ b !! j).
Proof.
  revert i a b. induction n as [|n IH]; intros i a b Hlive.
  { exists (buf_ a), (buf_ b). destruct a, b. simpl.
    split_and!; [done..| |]; intros j; case_lookup. }
  destruct (Hlive i) as [[x Hx] [y Hy]]; [lia|].
  pose proof (lookup_lt_Some _ _ _ Hx) as Hxl.
  pose proof (lookup_lt_Some _ _ _ Hy) as Hyl.
  simpl. unfold std_swap_pair, subscript, begin, read, assign_at. simpl.
  rewrite Hx, Hy. simpl.
  rewrite !list_lookup_insert_eq by done. simpl.
  rewrite !list_insert_insert_eq.
  destruct (IH (S i) (mk_static_vector (<[i := Some y]> (buf_ a)) (size_ a))
                     (mk_static_vector (<[i := Some x]> (buf_ b)) (size_ b)))
    as (ba & bb & -> & Hla & Hlb & Hba & Hbb).
  { intros j Hj. simpl. rewrite !live_insert_ne by lia. apply Hlive. lia. }
  exists ba, bb. simpl in *.
  split_and!; [done|by rewrite Hla, length_insert|by rewrite Hlb, length_insert|..].
  - intros j. rewrite Hba. case_lookup; destruct_and!; subst; by rewrite ?Hx, ?Hy.
  - intros j. rewrite Hbb. case_lookup; destruct_and!; subst; by rewrite ?Hx, ?Hy.
Qed.

(** Two containers are equal when their element lists are, slot by slot. *)
Lemma of_list_eq xs ys :
  (∀ i, xs !! i = ys !! i) → of_list N xs = of_list N ys.
Proof. intros H. f_equal. by apply list_eq. Qed.

Lemma of_list_eta_eq xs ys n :
  n = length ys → (∀ i, xs !! i = ys !! i) →
  mk_static_vector (buf_ (of_list N xs)) n = of_list N ys.
Proof.
  intros -> H. rewrite (list_eq xs ys H). by apply of_list_eta.
Qed.

(** [swap] of two distinct containers: the assertion of the [resize] that
    cuts the longer one is [min(size(), other.size()) < capacity()]; past
    it the two contents have changed places. *)
Lemma swap_pair_of_list xs ys :
  length xs ≤ N → length ys ≤ N →
  swap_pair N T_default moved (of_list N xs) (of_list N ys)
  = if bool_decide (length xs `min` length ys < N)
    then Ok (of_list N ys, of_list N xs)
    else AssertFail.
Proof.
  intros Hxs Hys. unfold swap_pair, minmax, size, begin, end_.
  rewrite !size_of_list, !Nat.sub_0_r.
  case_bd (length ys < length xs) Hcmp; cbv zeta beta iota.
  - destruct (swap_loop_pair_spec (length ys) 0 (of_list N xs) (of_list N ys))
      as (ba & bb & -> & Hla & Hlb & Hba & Hbb).
    { intros j Hj. split; apply of_list_live; lia. }
    assert (Hthis1 : mk_static_vector ba (length xs)
                     = of_list N (ys ++ drop (length ys) xs)).
    { apply of_list_ext; simpl; [list_lengths|list_lengths|].
      intros j. rewrite Hba, !of_list_lookup by done. lookup_solve. }
    assert (Hother1 : mk_static_vector bb (length ys)
                      = of_list N (take (length ys) xs)).
    { apply of_list_ext; simpl; [list_lengths|list_lengths|].
      intros j. rewrite Hbb, !of_list_lookup by done. lookup_solve. }
    rewrite !size_of_list. simpl. rewrite !Nat.sub_0_r.
    rewrite bool_decide_false by lia. rewrite Hthis1, Hother1, size_of_list.
    rewrite move_each_of_list by list_lengths. simpl.
    unfold resize_default. rewrite resize_of_list by list_lengths.
    replace (length xs `min` length ys) with (length ys) by lia.
    case_bd (length ys < N) Hroom; [|done]. simpl. do 2 f_equal.
    + apply of_list_eq. intros i. lookup_solve.
    + apply of_list_eta_eq; [list_lengths|]. intros i. lookup_solve.
  - destruct (swap_loop_pair_spec (length xs) 0 (of_list N xs) (of_list N ys))
      as (ba & bb & -> & Hla & Hlb & Hba & Hbb).
    { intros j Hj. split; apply of_list_live; lia. }
    assert (Hthis1 : mk_static_vector ba (length xs)
                     = of_list N (take (length xs) ys)).
    { apply of_list_ext; simpl; [list_lengths|list_lengths|].
      intros j. rewrite Hba, !of_list_lookup by done. lookup_solve. }
    assert (Hother1 : mk_static_vector bb (length ys)
                      = of_list N (xs ++ drop (length xs) ys)).
    { apply of_list_ext; simpl; [list_lengths|list_lengths|].
      intros j. rewrite Hbb, !of_list_lookup by done. lookup_solve. }
    rewrite !size_of_list. simpl. rewrite !Nat.sub_0_r.
    replace (length xs `min` length ys) with (length xs) by lia.
    case_bd (length xs < length ys) Hlt;
      rewrite Hthis1, Hother1, size_of_list;
      rewrite move_each_of_list by list_lengths; simpl;
      unfold resize_default; rewrite resize_of_list by list_lengths;
      (case_bd (length xs < N) Hroom; [|first [done|exfalso; lia]]);
      simpl; do 2 f_equal.
    + apply of_list_eta_eq; [list_lengths|]. intros i. lookup_solve.
    + apply of_list_eq. intros i. lookup_solve.
    + apply of_list_eq. intros i. lookup_solve.
    + apply of_list_eta_eq; [list_lengths|]. intros i. lookup_solve.
Qed.

Transparent of_list.

End static_vector_facts.

(** ** Assignment between the objects of a world *)

Section world_facts.
Import Storage StaticVector.
Context {T : Type} (N : nat) (T_default : T) (moved : T → T).
Implicit Types (w : @world T) (o : obj) (xs ys : list T).

Lemma get_set_eq w o v : get (set w o v) o = v.
Proof. by destruct o. Qed.

Lemma get_set_ne w o o' v : o ≠ o' → get (set w o v) o' = get w o'.
Proof. by destruct o, o'. Qed.

Lemma set_set_eq w o v v' : set (set w o v) o v' = set w o v'.
Proof. by destruct o. Qed.

Lemma set_get_id w o : set w o (get w o) = w.
Proof. by destruct w, o. Qed.

Opaque of_list get set.

(** [a = a]: the container is cleared before its own (now empty) range is
    assigned to it. *)
Lemma operator_assign_copy_self w o xs :
  length xs ≤ N → get w o = of_list N xs →
  operator_assign_copy N T_default moved w o o
  = if bool_decide (0 < N) then Ok (set w o (of_list N [])) else AssertFail.
Proof.
  intros Hxs Hget. unfold operator_assign_copy, begin, end_.
  rewrite Hget, (clear_of_list N) by done. simpl.
  rewrite !get_set_eq, size_of_list. simpl.
  rewrite (assign_of_list N) by (simpl; lia). simpl.
  case_bd (0 < N) HN; [|done]. simpl. by rewrite set_set_eq.
Qed.

Lemma operator_assign_copy_distinct w this other xs ys :
  this ≠ other → length xs ≤ N → length ys ≤ N →
  get w this = of_list N xs → get w other = of_list N ys →
  operator_assign_copy N T_default moved w this other
  = if bool_decide (length ys < N)
    then Ok (set w this (of_list N ys)) else AssertFail.
Proof.
  intros Hne Hxs Hys Hthis Hother. unfold operator_assign_copy, begin, end_.
  rewrite Hthis, (clear_of_list N) by done. simpl.
  rewrite get_set_eq, get_set_ne, Hother, size_of_list, Nat.sub_0_r by done.
  rewrite (read_range_of_list N) by done. simpl.
  rewrite (assign_of_list N) by (simpl; lia).
  case_bd (length ys < N) Hroom; [|done]. simpl. by rewrite set_set_eq.
Qed.

(** Between two distinct objects the loop of the move assignment is
    [move_each]. *)
Lemma move_each_in_distinct n it w this other :
  this ≠ other →
  move_each_in moved n it w this other
  = '(src', dst') ← move_each moved n it (get w other) (get w this);
    Ok (set (set w other src') this dst').
Proof.
  intros Hne. revert it w. induction n as [|n IH]; intros it w.
  { simpl. by rewrite !set_get_id. }
  simpl. destruct (read (buf_ (get w other)) it) as [x| |]; [|done..]. simpl.
  unfold set_cell. rewrite get_set_ne by done.
  destruct (emplace_back (get w this) x) as [[t p]| |]; [|done..]. simpl.
  rewrite IH. rewrite get_set_eq, get_set_ne, get_set_eq by done.
  destruct (move_each moved n (S it) _ t) as [[s' d']| |]; [|done..]. simpl.
  f_equal. destruct this, other; done.
Qed.

Lemma operator_assign_move_self w o xs :
  length xs ≤ N → get w o = of_list N xs →
  operator_assign_move moved w o o = Ok (set w o (of_list N [])).
Proof.
  intros Hxs Hget. unfold operator_assign_move, begin, end_.
  rewrite Hget, (clear_of_list N) by done. simpl.
  rewrite !get_set_eq, size_of_list. simpl.
  rewrite get_set_eq, (clear_of_list N) by (simpl; lia). simpl.
  by rewrite set_set_eq.
Qed.

Lemma operator_assign_move_distinct w this other xs ys :
  this ≠ other → length xs ≤ N → length ys ≤ N →
  get w this = of_list N xs → get w other = of_list N ys →
  operator_assign_move moved w this other
  = Ok (set (set w this (of_list N ys)) other (of_list N [])).
Proof.
  intros Hne Hxs Hys Hthis Hother. unfold operator_assign_move, begin, end_.
  rewrite Hthis, (clear_of_list N) by done. simpl.
  rewrite get_set_ne, Hother, size_of_list by done.
  rewrite move_each_in_distinct by done.
  rewrite get_set_eq, get_set_ne, Hother by done.
  rewrite (move_each_of_list N) by (simpl; lia). simpl.
  rewrite get_set_ne, get_set_eq by done.
  rewrite (clear_of_list N) by list_lengths. simpl.
  rewrite drop_0. f_equal. destruct this, other; done.
Qed.

Transparent of_list get set.

(** *** [swap] between two distinct objects is [swap_pair] *)

Lemma std_swap_distinct w a b i j :
  a ≠ b →
  std_swap moved w a b i j
  = '(ba, bb) ← std_swap_pair moved (buf_ (get w a)) (buf_ (get w b)) i j;
    Ok (set (set w a (mk_static_vector ba (size_ (get w a))))
            b (mk_static_vector bb (size_ (get w b)))).
Proof.
  intros Hne. unfold std_swap, std_swap_pair, set_cell.
  destruct w as [va vb], a, b; try done; simpl.
  - destruct (read (buf_ va) i) as [x| |]; [|done..]. simpl.
    destruct (read (buf_ vb) j) as [y| |]; [|done..]. simpl.
    destruct (assign_at _ i y) as [ba| |]; [|done..]. simpl.
    by destruct (assign_at _ j x) as [bb| |].
  - destruct (read (buf_ vb) i) as [x| |]; [|done..]. simpl.
    destruct (read (buf_ va) j) as [y| |]; [|done..]. simpl.
    destruct (assign_at _ i y) as [ba| |]; [|done..]. simpl.
    by destruct (assign_at _ j x) as [bb| |].
Qed.

Lemma swap_loop_distinct n i w this other :
  this ≠ other →
  swap_loop moved n i w this other
  = '(a, b) ← swap_loop_pair moved n i (get w this) (get w other);
    Ok (set (set w this a) other b).
Proof.
  intros Hne. revert i w. induction n as [|n IH]; intros i w.
  { simpl. by rewrite !set_get_id. }
  simpl. rewrite std_swap_distinct by done.
  unfold subscript, begin. simpl.
  destruct (std_swap_pair moved _ _ i i) as [[ba bb]| |]; [|done..]. simpl.
  rewrite IH. rewrite (get_set_ne _ other this) by done.
  rewrite !get_set_eq.
  destruct (swap_loop_pair moved n (S i) _ _) as [[a b]| |]; [|done..]. simpl.
  f_equal. destruct this, other; done.
Qed.

Lemma swap_distinct w this other :
  this ≠ other →
  swap N T_default moved w this other
  = '(a, b) ← swap_pair N T_default moved (get w this) (get w other);
    Ok (set (set w this a) other b).
Proof.
  intros Hne. unfold swap, swap_pair.
  destruct (minmax _ _) as [short_size long_size].
  rewrite swap_loop_distinct by done.
  destruct this, other; try done; destruct w as [va vb]; simpl.
  - destruct (swap_loop_pair moved short_size 0 va vb) as [[a b]| |]; [|done..].
    simpl. case_bool_decide; rewrite move_each_in_distinct by done; simpl.
    + destruct (move_each moved _ _ b a) as [[l1 s1]| |]; [|done..]. simpl.
      by destruct (resize_default N T_default moved l1 short_size).
    + destruct (move_each moved _ _ a b) as [[l1 s1]| |]; [|done..]. simpl.
      by destruct (resize_default N T_default moved l1 short_size).
  - destruct (swap_loop_pair moved short_size 0 vb va) as [[a b]| |]; [|done..].
    simpl. case_bool_decide; rewrite move_each_in_distinct by done; simpl.
    + destruct (move_each moved _ _ b a) as [[l1 s1]| |]; [|done..]. simpl.
      by destruct (resize_default N T_default moved l1 short_size).
    + destruct (move_each moved _ _ a b) as [[l1 s1]| |]; [|done..]. simpl.
      by destruct (resize_default N T_default moved l1 short_size).
Qed.

(** [swap] of two distinct containers: the assertion of the [resize] that
    cuts the longer one wants the smaller size below the capacity; past it
    the two contents have changed places. *)
Lemma swap_of_list w this other xs ys :
  this ≠ other → length xs ≤ N → length ys ≤ N →
  get w this = of_list N xs → get w other = of_list N ys →
  swap N T_default moved w this other
  = if bool_decide (length xs `min` length ys < N)
    then Ok (set (set w this (of_list N ys)) other (of_list N xs))
    else AssertFail.
Proof.
  intros Hne Hxs Hys Hthis Hother.
  rewrite swap_distinct, Hthis, Hother, (swap_pair_of_list N) by done.
  by case_bool_decide.
Qed.

(** *** [a.swap(a)] *)

Lemma std_swap_self w o i x :
  buf_ (get w o) !! i = Some (Some x) → std_swap moved w o o i i = Ok w.
Proof.
  intros Hx. pose proof (lookup_lt_Some _ _ _ Hx) as Hlt.
  unfold std_swap, set_cell, read, assign_at.
  rewrite Hx. simpl. rewrite !get_set_eq. simpl.
  rewrite list_lookup_insert_eq by done. simpl.
  rewrite !get_set_eq. simpl.
  rewrite list_lookup_insert_eq by (by rewrite length_insert). simpl.
  rewrite !get_set_eq. simpl.
  rewrite list_lookup_insert_eq by (by rewrite !length_insert). simpl.
  rewrite !set_set_eq, !list_insert_insert_eq, list_insert_id by done.
  f_equal. destruct o, w as [[] []]; done.
Qed.

Lemma swap_loop_self n i w o :
  (∀ j, i ≤ j < i + n → live (buf_ (get w o)) j) →
  swap_loop moved n i w o o = Ok w.
Proof.
  revert i. induction n as [|n IH]; intros i Hlive; [done|].
  destruct (Hlive i) as [x Hx]; [lia|].
  simpl. unfold subscript, begin. simpl.
  rewrite (std_swap_self w o i x) by done. simpl.
  apply IH. intros j Hj. apply Hlive. lia.
Qed.

Lemma swap_self w o xs :
  length xs ≤ N → get w o = of_list N xs →
  swap N T_default moved w o o
  = if bool_decide (length xs < N) then Ok w else AssertFail.
Proof.
  intros Hxs Hget. unfold swap, minmax, size, begin, end_.
  rewrite Hget, size_of_list, Nat.sub_0_r.
  rewrite bool_decide_false by lia.
  rewrite swap_loop_self
    by (intros j Hj; rewrite Hget; apply of_list_live; lia).
  simpl. rewrite Hget, size_of_list, Nat.sub_0_r.
  rewrite bool_decide_false by lia. rewrite Hget, size_of_list, Nat.sub_diag.
  simpl. rewrite Hget. unfold resize_default.
  rewrite (resize_of_list N) by done.
  case_bd (length xs < N) Hroom; [|done]. simpl.
  rewrite take_ge, Nat.sub_diag, app_nil_r by lia. simpl.
  rewrite get_set_eq, set_set_eq. f_equal.
  rewrite (of_list_eta N) by done. rewrite <- Hget. apply set_get_id.
Qed.

End world_facts.

(** ** Comparisons *)

Section comparison_facts.
Import Storage StaticVector.
Context {T : Type} (N : nat) (T_eq T_lt : T → T → bool).
Implicit Types (xs ys sx sy : list T) (ba bb : list (option T)).

Lemma read_lookup ba i (x : T) : ba !! i = Some (Some x) → read ba i = Ok x.
Proof. intros H. unfold read. by rewrite H. Qed.

Lemma equal_loop_spec ba bb sx sy i j :
  length sx = length sy →
  (∀ t, t < length sx → ba !! (i + t) = Some (sx !! t)) →
  (∀ t, t < length sy → bb !! (j + t) = Some (sy !! t)) →
  equal_loop T_eq (length sx) i j ba bb = Ok (pairwise_eq T_eq sx sy).
Proof.
  revert sy i j. induction sx as [|x sx IH]; intros [|y sy] i j Hlen Ha Hb;
    simplify_eq/=; [done|].
  rewrite (read_lookup ba i x), (read_lookup bb j y); simpl.
  - destruct (T_eq x y); [|done]. simpl. apply IH; [done|..].
    + intros t Ht. replace (S i + t) with (i + S t) by lia. apply (Ha (S t)). lia.
    + intros t Ht. replace (S j + t) with (j + S t) by lia. apply (Hb (S t)). lia.
  - rewrite <- (Nat.add_0_r j). apply (Hb 0). lia.
  - rewrite <- (Nat.add_0_r i). apply (Ha 0). lia.
Qed.

(** The body of [operator<], started [k] elements into both ranges. *)
Lemma operator_lt_from ba bb sx sy k :
  (∀ t, t < length sx → ba !! (k + t) = Some (sx !! t)) →
  (∀ t, t < length sy → bb !! (k + t) = Some (sy !! t)) →
  (iters ← std_mismatch T_eq (length sx) k k (k + length sy) ba bb;
   if bool_decide (iters.2 = k + length sy) then Ok false
   else if bool_decide (iters.1 = k + length sx) then Ok true
   else x ← read ba iters.1; y ← read bb iters.2; Ok (T_lt x y))
  = Ok (spec_lt T_eq T_lt sx sy).
Proof.
  revert sy k. induction sx as [|x sx IH]; intros sy k Ha Hb.
  { simpl. destruct sy as [|y sy]; simpl.
    - by rewrite bool_decide_true by lia.
    - rewrite bool_decide_false by lia. by rewrite bool_decide_true by lia. }
  simpl. destruct sy as [|y sy]; simpl.
  { rewrite bool_decide_true by lia. simpl. by rewrite bool_decide_true by lia. }
  rewrite bool_decide_false by lia.
  assert (Hx : ba !! k = Some (Some x)).
  { rewrite <- (Nat.add_0_r k). apply (Ha 0). simpl. lia. }
  assert (Hy : bb !! k = Some (Some y)).
  { rewrite <- (Nat.add_0_r k). apply (Hb 0). simpl. lia. }
  rewrite (read_lookup ba k x), (read_lookup bb k y) by done. simpl.
  destruct (T_eq x y).
  - replace (k + S (length sy)) with (S k + length sy) by lia.
    replace (k + S (length sx)) with (S k + length sx) by lia.
    apply IH.
    + intros t Ht. replace (S k + t) with (k + S t) by lia. apply (Ha (S t)). simpl. lia.
    + intros t Ht. replace (S k + t) with (k + S t) by lia. apply (Hb (S t)). simpl. lia.
  - simpl. rewrite !bool_decide_false by lia.
    by rewrite (read_lookup ba k x), (read_lookup bb k y) by done.
Qed.

Opaque of_list.

Lemma operator_eq_of_list xs ys :
  length xs ≤ N → length ys ≤ N →
  operator_eq T_eq (of_list N xs) (of_list N ys) = Ok (spec_eq T_eq xs ys).
Proof.
  intros Hxs Hys. unfold operator_eq, std_equal, spec_eq, size, begin, end_.
  rewrite !size_of_list, !Nat.sub_0_r.
  case_bd (length xs = length ys) Hlen; [|done]. simpl.
  apply equal_loop_spec; [done|..]; intros t Ht; simpl;
    by rewrite (of_list_lookup N), decide_True by lia.
Qed.

Lemma operator_lt_of_list xs ys :
  length xs ≤ N → length ys ≤ N →
  operator_lt T_eq T_lt (of_list N xs) (of_list N ys) = Ok (spec_lt T_eq T_lt xs ys).
Proof.
  intros Hxs Hys. unfold operator_lt, begin, end_.
  rewrite !size_of_list, !Nat.sub_0_r.
  apply (operator_lt_from _ _ xs ys 0); intros t Ht; simpl;
    by rewrite (of_list_lookup N), decide_True by lia.
Qed.

Transparent of_list.

(** What the specification's equality says, element by element. *)
Lemma spec_eq_true xs ys :
  spec_eq T_eq xs ys = true ↔
  length xs = length ys ∧
  ∀ i x y, xs !! i = Some x → ys !! i = Some y → T_eq x y = true.
Proof.
  unfold spec_eq. rewrite andb_true_iff, bool_decide_eq_true.
  split; intros [Hlen H]; (split; [done|]).
  - clear Hlen. revert ys H. induction xs as [|x xs IH]; intros [|y ys] H; try done.
    simpl in H. apply andb_true_iff in H as [Hxy H].
    intros [|i] x' y' Hx' Hy'; simplify_eq/=; [done|]. by eapply IH.
  - revert ys Hlen H. induction xs as [|x xs IH]; intros [|y ys] Hlen H; try done.
    simpl. apply andb_true_iff. split.
    + by apply (H 0).
    + apply IH; [by simplify_eq/=|]. intros i x' y' ??. by apply (H (S i)).
Qed.

End comparison_facts.

(** ** The reversing adaptor *)

Section reverse_iterator_facts.
Import ReverseIterator.

Lemma seq_pos_iter_incr {E : Type} (p : seq_pos E) (k : nat) :
  Nat.iter k incr p = mk_seq_pos (pos_seq p) (idx p + Z.of_nat k).
Proof.
  induction k as [|k IH].
  - destruct p. simpl. f_equal. lia.
  - rewrite Nat.iter_succ, IH. simpl. f_equal. lia.
Qed.

Lemma seq_pos_iter_decr {E : Type} (p : seq_pos E) (k : nat) :
  Nat.iter k decr p = mk_seq_pos (pos_seq p) (idx p - Z.of_nat k).
Proof.
  induction k as [|k IH].
  - destruct p. simpl. f_equal. lia.
  - rewrite Nat.iter_succ, IH. simpl. f_equal. lia.
Qed.

(** On the positions of a sequence [std::advance] adds to the index. *)
Lemma seq_pos_advance {E : Type} (p : seq_pos E) (n : Z) :
  std_advance p n = mk_seq_pos (pos_seq p) (idx p + n).
Proof.
  unfold std_advance. case_bool_decide as Hn.
  - rewrite seq_pos_iter_incr. f_equal. lia.
  - rewrite seq_pos_iter_decr. f_equal. lia.
Qed.

#[global] Instance seq_pos_laws {E : Type} : BidiIterLaws (seq_pos E) E.
Proof.
  split; intros [S i]; simpl; f_equal; lia.
Qed.

Context {I E : Type} `{BidiIter I E}.

Lemma reverse_incr (r : reverse_iterator I) :
  incr r = make_reverse_iterator (decr (it_ r)).
Proof. done. Qed.

Lemma reverse_decr (r : reverse_iterator I) :
  decr r = make_reverse_iterator (incr (it_ r)).
Proof. done. Qed.

#[global] Instance reverse_iterator_laws `{!BidiIterLaws I E} :
  BidiIterLaws (reverse_iterator I) E.
Proof.
  split; intros [it]; rewrite reverse_incr, reverse_decr; simpl;
    unfold make_reverse_iterator; f_equal.
  - apply incr_decr.
  - apply decr_incr.
Qed.

(** The adaptor of the adaptor of [it] steps and dereferences as [it]. *)
Lemma double_reverse_incr (it : I) :
  incr (make_reverse_iterator (make_reverse_iterator it))
  = make_reverse_iterator (make_reverse_iterator (incr it)).
Proof. done. Qed.

Lemma double_reverse_decr (it : I) :
  decr (make_reverse_iterator (make_reverse_iterator it))
  = make_reverse_iterator (make_reverse_iterator (decr it)).
Proof. done. Qed.

Lemma double_reverse_deref `{!BidiIterLaws I E} (it : I) :
  deref (make_reverse_iterator (make_reverse_iterator it)) = deref it.
Proof.
  change (deref (make_reverse_iterator (make_reverse_iterator it)))
    with (deref (decr (incr it))).
  by rewrite decr_incr.
Qed.

Lemma double_reverse_eq (it it' : I) :
  iter_eq (make_reverse_iterator (make_reverse_iterator it))
          (make_reverse_iterator (make_reverse_iterator it'))
  = iter_eq it it'.
Proof. done. Qed.

(** Negation is defined on every value of [difference_type] but the
    least. *)
Lemma negate_in_range (w : nat) (n : Z) :
  (difference_min w < n ≤ difference_max w)%Z → negate w n = Ok (- n)%Z.
Proof.
  unfold negate, difference_min, difference_max. intros Hn.
  by rewrite bool_decide_true by lia.
Qed.

Lemma negate_least (w : nat) : negate w (difference_min w) = UB.
Proof.
  unfold negate, difference_min, difference_max.
  by rewrite bool_decide_false by lia.
Qed.

Lemma difference_type_has_one (w : nat) :
  2 ≤ w → (difference_min w < -1)%Z ∧ (1 ≤ difference_max w)%Z.
Proof.
  intros Hw. unfold difference_min, difference_max.
  assert (2 ^ 1 ≤ 2 ^ (Z.of_nat w - 1))%Z by (apply Z.pow_le_mono_r; lia).
  lia.
Qed.

(** The body of [operator+=] within the range of negation. *)
Lemma plus_assign_body_in_range (w : nat) (r : reverse_iterator I) (n : Z) :
  (difference_min w < n ≤ difference_max w)%Z →
  operator_plus_assign_body w r n
  = Ok (make_reverse_iterator (std_advance (base_reference r) (- n))).
Proof.
  intros Hn. unfold operator_plus_assign_body. by rewrite negate_in_range.
Qed.

End reverse_iterator_facts.

Section reverse_traversal.
Import ReverseIterator.
Context {E : Type}.
Implicit Types S : list E.

Lemma rev_pos_deref S (k : nat) :
  operator_star (make_reverse_iterator (mk_seq_pos S (Z.of_nat (Datatypes.S k))))
  = S !! k.
Proof.
  unfold operator_star, std_prev. simpl.
  rewrite bool_decide_true by lia. f_equal. lia.
Qed.

(** From the adaptor on position [k] to [rend], the first [k] elements
    are met last to first. *)
Lemma traverse_from S (k fuel : nat) :
  k ≤ length S → k ≤ fuel →
  traverse fuel (make_reverse_iterator (mk_seq_pos S (Z.of_nat k))) (rend S)
  = Some (reverse (take k S)).
Proof.
  revert fuel. induction k as [|k IH]; intros fuel Hk Hfuel.
  { by destruct fuel. }
  destruct fuel as [|fuel]; [lia|].
  destruct (lookup_lt_is_Some_2 S k) as [x Hx]; [lia|].
  cbn [traverse]. 
  replace (iter_eq _ (rend S)) with false
    by (symmetry; apply bool_decide_eq_false; simpl; lia).
  change (deref ?r) with (operator_star r).
  rewrite rev_pos_deref, Hx.
  assert (Hstep : incr (make_reverse_iterator (mk_seq_pos S (Z.of_nat (Datatypes.S k))))
                  = make_reverse_iterator (mk_seq_pos S (Z.of_nat k))).
  { rewrite reverse_incr. unfold make_reverse_iterator. simpl. do 2 f_equal. lia. }
  rewrite Hstep, IH by lia. simpl.
  by rewrite (take_S_r _ _ x), reverse_snoc.
Qed.

(** From the twice-adapted position [k] to the twice-adapted [end()], the
    elements from [k] on are met first to last. *)
Lemma traverse_double_from S (n k fuel : nat) :
  k + n = length S → n ≤ fuel →
  traverse fuel
    (make_reverse_iterator (make_reverse_iterator (mk_seq_pos S (Z.of_nat k))))
    (make_reverse_iterator (rbegin S))
  = Some (drop k S).
Proof.
  revert k fuel. induction n as [|n IH]; intros k fuel Hk Hfuel.
  { assert (k = length S) as -> by lia. rewrite drop_all.
    unfold rbegin, seq_end.
    destruct fuel; cbn [traverse]; rewrite double_reverse_eq; simpl;
      by rewrite bool_decide_true by done. }
  destruct fuel as [|fuel]; [lia|].
  destruct (lookup_lt_is_Some_2 S k) as [x Hx]; [lia|].
  cbn [traverse]. unfold rbegin, seq_end.
  rewrite double_reverse_eq, double_reverse_deref, double_reverse_incr.
  replace (iter_eq _ _) with false
    by (symmetry; apply bool_decide_eq_false; simpl; lia).
  replace (deref (mk_seq_pos S (Z.of_nat k))) with (Some x)
    by (simpl; rewrite bool_decide_true by lia; by rewrite Nat2Z.id).
  replace (incr (mk_seq_pos S (Z.of_nat k)))
    with (mk_seq_pos S (Z.of_nat (Datatypes.S k))) by (simpl; f_equal; lia).
  fold (seq_end S). fold (rbegin S).
  rewrite IH by lia. simpl.
  by rewrite (drop_S _ x k).
Qed.

End reverse_traversal.

(** ** Every call keeps the invariant *)

Section call_facts.
Import Storage StaticVector.
Context {T : Type} (N : nat) (T_default : T) (moved : T → T).
Implicit Types (w : @world T) (o : obj) (xs ys : list T).

Lemma world_invariant_get w o : world_invariant N w → invariant N (get w o).
Proof. intros [??]. by destruct o. Qed.

Lemma world_invariant_set w o v :
  world_invariant N w → invariant N v → world_invariant N (set w o v).
Proof. intros [??] ?. by destruct o. Qed.

Lemma world_get_of_list w o :
  world_invariant N w → ∃ xs, length xs ≤ N ∧ get w o = of_list N xs.
Proof. intros Hw. by apply invariant_inv, world_invariant_get. Qed.

Lemma invariant_ctor_default : invariant N (@ctor_default T N).
Proof. rewrite ctor_default_of_list. apply invariant_of_list. simpl. lia. Qed.

(** A call made within its precondition never runs into undefined
    behaviour; it either returns with the invariant in place, or trips an
    assertion, and then only when the element count it asked for is the
    capacity itself. *)
Lemma run_establishes (c : call) w :
  world_invariant N w → precondition N c w →
  match run N T_default moved c w with
  | Ok w' => world_invariant N w'
  | AssertFail => fills_capacity N c w
  | UB => False
  end.
Proof.
  intros Hw Hpre.
  destruct c as [o|o n|o n x|o rng|o il|o other|o other|this other|this other
                |o pos x|o x|o pos rng|o f last|o sz x|o|this other];
    simpl in *.
  - apply world_invariant_set; [done|apply invariant_ctor_default].
  - unfold ctor_count. fold (ctor_count_value N T_default moved n T_default).
    rewrite ctor_count_value_eq. case_bool_decide; simpl; [|lia].
    apply world_invariant_set; [done|]. apply invariant_of_list.
    rewrite length_replicate. lia.
  - rewrite ctor_count_value_eq. case_bool_decide; simpl; [|lia].
    apply world_invariant_set; [done|]. apply invariant_of_list.
    rewrite length_replicate. lia.
  - rewrite ctor_range_eq. case_bool_decide; simpl; [|lia].
    apply world_invariant_set; [done|]. by apply invariant_of_list.
  - unfold ctor_initializer_list. rewrite ctor_range_eq.
    case_bool_decide; simpl; [|lia].
    apply world_invariant_set; [done|]. by apply invariant_of_list.
  - destruct (world_get_of_list w other Hw) as (ys & Hys & ->).
    rewrite ctor_copy_eq by done. unfold size, begin, end_. simpl.
    case_bool_decide; simpl; [|lia].
    apply world_invariant_set; [done|]. by apply invariant_of_list.
  - destruct (world_get_of_list w other Hw) as (ys & Hys & ->).
    rewrite ctor_move_eq by done. simpl.
    apply world_invariant_set; [|by apply invariant_of_list].
    apply world_invariant_set; [done|]. apply invariant_of_list. simpl. lia.
  - destruct (world_get_of_list w this Hw) as (xs & Hxs & Hthis).
    destruct (world_get_of_list w other Hw) as (ys & Hys & Hother).
    destruct (decide (this = other)) as [->|Hne].
    + rewrite (operator_assign_copy_self N _ _ w other xs) by done.
      case_bool_decide; simpl; [|lia].
      apply world_invariant_set; [done|]. apply invariant_of_list. simpl. lia.
    + rewrite (operator_assign_copy_distinct N _ _ w this other xs ys) by done.
      rewrite Hother. unfold size, begin, end_. simpl.
      case_bool_decide; simpl; [|lia].
      apply world_invariant_set; [done|]. by apply invariant_of_list.
  - destruct (world_get_of_list w this Hw) as (xs & Hxs & Hthis).
    destruct (world_get_of_list w other Hw) as (ys & Hys & Hother).
    destruct (decide (this = other)) as [->|Hne].
    + rewrite (operator_assign_move_self N _ w other xs) by done.
      apply world_invariant_set; [done|]. apply invariant_of_list. simpl. lia.
    + rewrite (operator_assign_move_distinct N _ w this other xs ys) by done.
      apply world_invariant_set; [|apply invariant_of_list; simpl; lia].
      apply world_invariant_set; [done|]. by apply invariant_of_list.
  - destruct (world_get_of_list w o Hw) as (xs & Hxs & Hget).
    rewrite Hget in *. unfold size, begin, end_ in Hpre. simpl in Hpre.
    rewrite emplace_of_list by lia. simpl.
    apply world_invariant_set; [done|]. apply invariant_of_list. list_lengths.
  - destruct (world_get_of_list w o Hw) as (xs & Hxs & Hget).
    rewrite Hget in *. unfold size, begin, end_ in Hpre. simpl in Hpre.
    rewrite emplace_back_of_list by lia. simpl.
    apply world_invariant_set; [done|]. apply invariant_of_list. list_lengths.
  - destruct (world_get_of_list w o Hw) as (xs & Hxs & Hget).
    rewrite Hget in *. unfold size, begin, end_ in *. simpl in Hpre |- *.
    rewrite insert_of_list by lia.
    case_bool_decide; simpl; [|lia].
    apply world_invariant_set; [done|]. apply invariant_of_list. list_lengths.
  - destruct (world_get_of_list w o Hw) as (xs & Hxs & Hget).
    rewrite Hget in *. unfold size, begin, end_ in Hpre. simpl in Hpre.
    rewrite erase_of_list by lia. simpl.
    apply world_invariant_set; [done|]. apply invariant_of_list. list_lengths.
  - destruct (world_get_of_list w o Hw) as (xs & Hxs & Hget).
    rewrite Hget in *. rewrite resize_of_list by lia.
    case_bool_decide; simpl; [|lia].
    apply world_invariant_set; [done|]. apply invariant_of_list. list_lengths.
  - destruct (world_get_of_list w o Hw) as (xs & Hxs & Hget).
    rewrite Hget in *. rewrite clear_of_list by lia. simpl.
    apply world_invariant_set; [done|]. apply invariant_of_list. simpl. lia.
  - destruct (decide (this = other)) as [->|Hne].
    + destruct (world_get_of_list w other Hw) as (xs & Hxs & Hget).
      rewrite (swap_self N _ _ w other xs), Hget by done.
      unfold size, begin, end_. simpl.
      case_bool_decide; simpl; [done|lia].
    + destruct (world_get_of_list w this Hw) as (xs & Hxs & Hthis).
      destruct (world_get_of_list w other Hw) as (ys & Hys & Hother).
      rewrite (swap_of_list N _ _ w this other xs ys), Hthis, Hother by done.
      unfold size, begin, end_. simpl.
      case_bool_decide; simpl; [|lia].
      apply world_invariant_set; [|by apply invariant_of_list].
      apply world_invariant_set; [done|]. by apply invariant_of_list.
Qed.

End call_facts.

(** * The specification, statement by statement *)

Ltac norm_size :=
  unfold StaticVector.size, StaticVector.capacity, StaticVector.begin,
    StaticVector.end_ in *;
  rewrite ?size_of_list, ?Nat.sub_0_r in *.

Section container_specification.
Import Storage StaticVector.

(** [emplace_back(x)] is [emplace(end(), x)]. *)
Lemma emplace_at_end {T : Type} (moved : T → T) (v : static_vector) (x : T) :
  emplace moved v (end_ v) x = emplace_back v x.
Proof.
  unfold emplace. rewrite bool_decide_false by lia. done.
Qed.

(** C4.  [emplace(position, x)] on a container with [size() < capacity()]
    and a position in [[begin(), end()]] returns that position; afterwards
    the size is one more, the new element sits at the position, the elements
    that were at [[position, end())] sit one slot to the right, the ones
    before it are untouched, and the invariant holds.  [emplace_back] is
    [emplace] at [end()], and on a container of capacity 4 holding 1, 2, 3,
    [emplace_back(4)] gives 1, 2, 3, 4 with size 4. *)
Theorem emplace_shifts_and_places :
  (∀ (T : Type) (N : nat) (moved : T → T) (v : @static_vector T) (pos : nat) (x : T),
     invariant N v → size v < capacity N v → pos ≤ size v →
     ∃ xs v',
       contents v = Some xs ∧
       emplace moved v pos x = Ok (v', pos) ∧
       invariant N v' ∧
       size v' = S (size v) ∧
       contents v' = Some (take pos xs ++ x :: drop pos xs) ∧
       read (buf_ v') pos = Ok x ∧
       (∀ i, pos ≤ i < size v → buf_ v' !! S i = buf_ v !! i) ∧
       (∀ i, i < pos → buf_ v' !! i = buf_ v !! i)) ∧
  (∀ (T : Type) (moved : T → T) (v : @static_vector T) (x : T),
     emplace_back v x = emplace moved v (end_ v) x) ∧
  (∀ moved : Z → Z,
     emplace_back (of_list 4 [1; 2; 3]%Z) 4%Z = Ok (of_list 4 [1; 2; 3; 4]%Z, 3) ∧
     emplace moved (of_list 4 [1; 2; 3]%Z) 3 4%Z = Ok (of_list 4 [1; 2; 3; 4]%Z, 3) ∧
     size (of_list 4 [1; 2; 3; 4]%Z) = 4).
Proof.
  split_and!.
  - intros T N moved v pos x Hinv Hsz Hpos.
    apply invariant_inv in Hinv as (xs & Hxs & ->).
    norm_size.
    exists xs, (of_list N (take pos xs ++ x :: drop pos xs)).
    assert (Hlen : length (take pos xs ++ x :: drop pos xs) = S (length xs))
      by list_lengths.
    split_and!.
    + by apply contents_of_list.
    + by apply emplace_of_list.
    + apply invariant_of_list. lia.
    + norm_size. lia.
    + apply contents_of_list. lia.
    + apply read_lookup. rewrite of_list_lookup, decide_True by lia.
      f_equal. apply list_lookup_middle. list_lengths.
    + intros i Hi. rewrite !of_list_lookup, !decide_True by lia. lookup_solve.
    + intros i Hi. rewrite !of_list_lookup, !decide_True by lia. lookup_solve.
  - intros. symmetry. apply emplace_at_end.
  - intros moved. split_and!; reflexivity.
Qed.

(** C5.  [erase(first, last)] with [first <= last <= end()] returns
    [first]; afterwards the elements before [first] and the ones from
    [last] on are left, in order, the size is smaller by [last - first], and
    the invariant holds: the slots past the new size hold no object.  On
    1, 2, 3, 4, [erase(begin() + 1, begin() + 3)] gives 1, 4 with size 2. *)
Theorem erase_closes_the_hole :
  (∀ (T : Type) (N : nat) (moved : T → T) (v : @static_vector T) (f last : nat),
     invariant N v → f ≤ last → last ≤ size v →
     ∃ xs v',
       contents v = Some xs ∧
       erase moved v f last = Ok (v', f) ∧
       invariant N v' ∧
       size v' = size v - (last - f) ∧
       contents v' = Some (take f xs ++ drop last xs) ∧
       (∀ i, f ≤ i < size v' → buf_ v' !! i = buf_ v !! (i + (last - f))) ∧
       (∀ i, size v' ≤ i < N → buf_ v' !! i = Some None)) ∧
  (∀ (N : nat) (moved : Z → Z), 4 ≤ N →
     erase moved (of_list N [1; 2; 3; 4]%Z) 1 3 = Ok (of_list N [1; 4]%Z, 1) ∧
     size (of_list N [1; 4]%Z) = 2).
Proof.
  split.
  - intros T N moved v f last Hinv Hfl Hlast.
    apply invariant_inv in Hinv as (xs & Hxs & ->).
    norm_size.
    exists xs, (of_list N (take f xs ++ drop last xs)).
    assert (Hlen : length (take f xs ++ drop last xs) = length xs - (last - f))
      by list_lengths.
    split_and!.
    + by apply contents_of_list.
    + by apply erase_of_list.
    + apply invariant_of_list. lia.
    + norm_size. lia.
    + apply contents_of_list. lia.
    + intros i Hi. norm_size.
      rewrite !of_list_lookup, !decide_True by lia. lookup_solve.
    + intros i Hi. norm_size. rewrite !of_list_lookup, !decide_True by lia.
      f_equal. apply lookup_ge_None_2. lia.
  - intros N moved HN. split; [|done].
    by rewrite erase_of_list by (simpl; lia).
Qed.

(** C1.  [insert(pos, first, last)] with [pos] in [[begin(), end()]]:
    where the assertion [size() + insertions < capacity()] holds, it returns
    [pos] with the range in place, in order, before what followed [pos];
    otherwise, so already where the sum is the capacity itself, the
    assertion trips.  On 1, 4, inserting 9, 9 at [begin() + 1] gives
    1, 9, 9, 4 for every capacity above 4, and an assertion failure for
    capacity 4. *)
Theorem insert_range_and_its_assertion :
  (∀ (T : Type) (N : nat) (T_default : T) (moved : T → T)
     (v : @static_vector T) (pos : nat) (rng : list T),
     invariant N v → pos ≤ size v →
     ∃ xs, contents v = Some xs ∧
       insert N T_default moved v pos rng
       = if bool_decide (size v + length rng < capacity N v)
         then Ok (of_list N (take pos xs ++ rng ++ drop pos xs), pos)
         else AssertFail) ∧
  (∀ (N : nat) (moved : Z → Z), 4 ≤ N →
     insert N 0%Z moved (of_list N [1; 4]%Z) 1 [9; 9]%Z
     = if bool_decide (N = 4) then AssertFail
       else Ok (of_list N [1; 9; 9; 4]%Z, 1)).
Proof.
  split.
  - intros T N T_default moved v pos rng Hinv Hpos.
    apply invariant_inv in Hinv as (xs & Hxs & ->). norm_size.
    exists xs. split; [by apply contents_of_list|].
    by apply insert_of_list.
  - intros N moved HN. rewrite insert_of_list by (simpl; lia). simpl.
    case_bd (N = 4) H4.
    + by rewrite bool_decide_false by lia.
    + by rewrite bool_decide_true by lia.
Qed.

Lemma insert_range_and_its_assertion_witness :
  (4 ≤ 4 ∧
   insert 4 0%Z id (of_list 4 [1; 4]%Z) 1 [9; 9]%Z
   = if bool_decide (4 = 4) then AssertFail else Ok (of_list 4 [1; 9; 9; 4]%Z, 1)) ∧
  (invariant 4 (of_list 4 [1; 4]%Z) ∧ 1 ≤ size (of_list 4 [1; 4]%Z) ∧
   ∃ xs, contents (of_list 4 [1; 4]%Z) = Some xs ∧
     insert 4 0%Z id (of_list 4 [1; 4]%Z) 1 [9; 9]%Z
     = if bool_decide (size (of_list 4 [1; 4]%Z) + length [9; 9]%Z
                       < capacity 4 (of_list 4 [1; 4]%Z))
       then Ok (of_list 4 (take 1 xs ++ [9; 9]%Z ++ drop 1 xs), 1)
       else AssertFail).
Proof.
  assert (Hinv : invariant 4 (of_list 4 [1; 4]%Z))
    by (apply invariant_of_list; simpl; lia).
  split; [split; [lia|]|split_and!; [exact Hinv|vm_compute; lia|]].
  - apply (proj2 insert_range_and_its_assertion 4 id). lia.
  - apply (proj1 insert_range_and_its_assertion Z 4 0%Z id _ 1 [9; 9]%Z Hinv).
    vm_compute. lia.
Defined.

(** C2.  [resize(sz, x)] trips its assertion exactly when
    [capacity() <= sz], so already for [sz == capacity()]; for
    [sz < capacity()] it returns with [size() == sz], the first [sz] elements
    kept and the new trailing slots holding copies of [x], and the invariant
    in place. *)
Theorem resize_and_its_assertion :
  ∀ (T : Type) (N : nat) (moved : T → T) (v : @static_vector T) (sz : nat) (x : T),
    invariant N v →
    ∃ xs, contents v = Some xs ∧
      (resize N moved v sz x = AssertFail ↔ capacity N v ≤ sz) ∧
      (sz < capacity N v →
       ∃ v', resize N moved v sz x = Ok v' ∧ size v' = sz ∧ invariant N v' ∧
             contents v' = Some (take sz xs ++ replicate (sz - size v) x)).
Proof.
  intros T N moved v sz x Hinv.
  apply invariant_inv in Hinv as (xs & Hxs & ->). norm_size.
  exists xs. split; [by apply contents_of_list|].
  rewrite resize_of_list by done.
  assert (Hlen : sz < N → length (take sz xs ++ replicate (sz - length xs) x) = sz)
    by (intros; list_lengths).
  split.
  - case_bool_decide; split; intros; (done || lia).
  - intros Hsz. rewrite bool_decide_true by done.
    eexists. split; [done|]. norm_size. split_and!.
    + by apply Hlen.
    + apply invariant_of_list. rewrite Hlen; lia.
    + apply contents_of_list. rewrite Hlen; lia.
Qed.

Lemma resize_and_its_assertion_witness :
  invariant 4 (of_list 4 [1; 2; 3]%Z) ∧
  ∃ xs, contents (of_list 4 [1; 2; 3]%Z) = Some xs ∧
    (resize 4 id (of_list 4 [1; 2; 3]%Z) 4 0%Z = AssertFail
     ↔ capacity 4 (of_list 4 [1; 2; 3]%Z) ≤ 4) ∧
    (4 < capacity 4 (of_list 4 [1; 2; 3]%Z) →
     ∃ v', resize 4 id (of_list 4 [1; 2; 3]%Z) 4 0%Z = Ok v' ∧ size v' = 4 ∧
           invariant 4 v' ∧
           contents v' = Some (take 4 xs ++ replicate (4 - size (of_list 4 [1; 2; 3]%Z)) 0%Z)).
Proof.
  assert (Hinv : invariant 4 (of_list 4 [1; 2; 3]%Z))
    by (apply invariant_of_list; simpl; lia).
  split; [exact Hinv|].
  apply (resize_and_its_assertion Z 4 id (of_list 4 [1; 2; 3]%Z) 4 0%Z Hinv).
Defined.

(** A full container is within reach: [emplace_back] has no assertion and
    fills the last slot. *)
Example full_by_emplace_back :
  ('(v1, _) ← emplace_back (@ctor_default Z 2) 1%Z;
   '(v2, _) ← emplace_back v1 2%Z; Ok v2)
  = Ok (of_list 2 [1; 2]%Z).
Proof. reflexivity. Qed.

(** C3.  [a.swap(b)] on two distinct containers trips the assertion of the
    [resize] that cuts the longer one exactly when the smaller size is the
    capacity, that is when both are full; otherwise each ends in the state
    the other was in, elements and size, and a second [swap] restores both.
    On 1, 2, 3 and 4, 5 it gives 4, 5 of size 2 and 1, 2, 3 of size 3. *)
Theorem swap_exchanges_unless_both_full :
  (∀ (T : Type) (N : nat) (T_default : T) (moved : T → T)
     (w : @world T) (this other : obj),
     this ≠ other → world_invariant N w →
     swap N T_default moved w this other
     = (if bool_decide (size (get w this) `min` size (get w other)
                        < capacity N (get w this))
        then Ok (set (set w this (get w other)) other (get w this))
        else AssertFail) ∧
     (size (get w this) `min` size (get w other) < capacity N (get w this) →
      (w' ← swap N T_default moved w this other;
       swap N T_default moved w' this other) = Ok w)) ∧
  (∀ (N : nat) (moved : Z → Z), 3 ≤ N →
     swap N 0%Z moved (mk_world (of_list N [1; 2; 3]%Z) (of_list N [4; 5]%Z))
          ObjA ObjB
     = Ok (mk_world (of_list N [4; 5]%Z) (of_list N [1; 2; 3]%Z)) ∧
     size (of_list N [4; 5]%Z) = 2 ∧ size (of_list N [1; 2; 3]%Z) = 3).
Proof.
  split.
  - intros T N T_default moved w this other Hne Hw.
    destruct (world_get_of_list N w this Hw) as (xs & Hxs & Hthis).
    destruct (world_get_of_list N w other Hw) as (ys & Hys & Hother).
    rewrite (swap_of_list N _ _ w this other xs ys), Hthis, Hother by done.
    norm_size. split; [done|].
    intros Hmin. rewrite bool_decide_true by done. simpl.
    rewrite (swap_of_list N _ _ _ this other ys xs);
      [|done..|by rewrite get_set_ne, get_set_eq|by rewrite get_set_eq].
    rewrite bool_decide_true by lia. f_equal.
    rewrite <- Hthis, <- Hother. destruct this, other, w; done.
  - intros N moved HN. split; [|done].
    rewrite (swap_of_list N _ _ _ ObjA ObjB [1; 2; 3]%Z [4; 5]%Z)
      by (done || simpl; lia).
    by rewrite bool_decide_true by (simpl; lia).
Qed.

Lemma swap_exchanges_unless_both_full_witness :
  (ObjA ≠ ObjB ∧
   world_invariant 2 (mk_world (of_list 2 [1; 2]%Z) (of_list 2 [3; 4]%Z)) ∧
   swap 2 0%Z id (mk_world (of_list 2 [1; 2]%Z) (of_list 2 [3; 4]%Z)) ObjA ObjB
   = AssertFail) ∧
  (3 ≤ 3 ∧
   swap 3 0%Z id (mk_world (of_list 3 [1; 2; 3]%Z) (of_list 3 [4; 5]%Z)) ObjA ObjB
   = Ok (mk_world (of_list 3 [4; 5]%Z) (of_list 3 [1; 2; 3]%Z))).
Proof.
  assert (Hw : world_invariant 2 (mk_world (of_list 2 [1; 2]%Z) (of_list 2 [3; 4]%Z)))
    by (split; apply invariant_of_list; simpl; lia).
  split; [split_and!; [done|exact Hw|]|split; [lia|]].
  - exact (proj1 (proj1 swap_exchanges_unless_both_full Z 2 0%Z id _ ObjA ObjB
                    ltac:(done) Hw)).
  - apply (proj2 swap_exchanges_unless_both_full 3 id). lia.
Defined.

Lemma emplace_shifts_and_places_witness :
  invariant 4 (of_list 4 [1; 2; 3]%Z) ∧
  size (of_list 4 [1; 2; 3]%Z) < capacity 4 (of_list 4 [1; 2; 3]%Z) ∧
  1 ≤ size (of_list 4 [1; 2; 3]%Z) ∧
  ∃ xs v',
    contents (of_list 4 [1; 2; 3]%Z) = Some xs ∧
    emplace id (of_list 4 [1; 2; 3]%Z) 1 9%Z = Ok (v', 1) ∧
    invariant 4 v' ∧
    size v' = S (size (of_list 4 [1; 2; 3]%Z)) ∧
    contents v' = Some (take 1 xs ++ 9%Z :: drop 1 xs) ∧
    read (buf_ v') 1 = Ok 9%Z ∧
    (∀ i, 1 ≤ i < size (of_list 4 [1; 2; 3]%Z) →
          buf_ v' !! S i = buf_ (of_list 4 [1; 2; 3]%Z) !! i) ∧
    (∀ i, i < 1 → buf_ v' !! i = buf_ (of_list 4 [1; 2; 3]%Z) !! i).
Proof.
  assert (Hinv : invariant 4 (of_list 4 [1; 2; 3]%Z))
    by (apply invariant_of_list; simpl; lia).
  split_and!; [exact Hinv|vm_compute; lia|vm_compute; lia|].
  apply (proj1 emplace_shifts_and_places Z 4 id (of_list 4 [1; 2; 3]%Z) 1 9%Z);
    [exact Hinv|vm_compute; lia|vm_compute; lia].
Defined.

Lemma erase_closes_the_hole_witness :
  invariant 4 (of_list 4 [1; 2; 3; 4]%Z) ∧ 1 ≤ 3 ∧
  3 ≤ size (of_list 4 [1; 2; 3; 4]%Z) ∧
  ∃ xs v',
    contents (of_list 4 [1; 2; 3; 4]%Z) = Some xs ∧
    erase id (of_list 4 [1; 2; 3; 4]%Z) 1 3 = Ok (v', 1) ∧
    invariant 4 v' ∧
    size v' = size (of_list 4 [1; 2; 3; 4]%Z) - (3 - 1) ∧
    contents v' = Some (take 1 xs ++ drop 3 xs) ∧
    (∀ i, 1 ≤ i < size v' →
          buf_ v' !! i = buf_ (of_list 4 [1; 2; 3; 4]%Z) !! (i + (3 - 1))) ∧
    (∀ i, size v' ≤ i < 4 → buf_ v' !! i = Some None) ∧
  4 ≤ 4 ∧
  erase id (of_list 4 [1; 2; 3; 4]%Z) 1 3 = Ok (of_list 4 [1; 4]%Z, 1).
Proof.
  assert (Hinv : invariant 4 (of_list 4 [1; 2; 3; 4]%Z))
    by (apply invariant_of_list; simpl; lia).
  split_and!; [exact Hinv|lia|vm_compute; lia|].
  destruct (proj1 erase_closes_the_hole Z 4 id (of_list 4 [1; 2; 3; 4]%Z) 1 3)
    as (xs & v' & H); [exact Hinv|lia|vm_compute; lia|].
  destruct (proj2 erase_closes_the_hole 4 id) as [Herase _]; [lia|].
  exists xs, v'. destruct H as (?&?&?&?&?&?&?).
  split_and!; try assumption. lia.
Defined.

(** C8.  On containers that satisfy the invariant, [a == b] is the
    specification's size-then-elementwise equality: true exactly when the
    sizes agree and the elements are pairwise equal; [a < b] is the
    specification's lexicographic comparison with the three-way tie-break.
    On the four examples of the specification the answers are true, true,
    false and true. *)
Theorem comparisons_follow_the_specification :
  (∀ (T : Type) (N : nat) (T_eq T_lt : T → T → bool) (a b : @static_vector T),
     invariant N a → invariant N b →
     ∃ xs ys, contents a = Some xs ∧ contents b = Some ys ∧
       operator_eq T_eq a b = Ok (spec_eq T_eq xs ys) ∧
       (spec_eq T_eq xs ys = true ↔
        size a = size b ∧
        ∀ i x y, xs !! i = Some x → ys !! i = Some y → T_eq x y = true) ∧
       operator_lt T_eq T_lt a b = Ok (spec_lt T_eq T_lt xs ys)) ∧
  (∀ N : nat, 3 ≤ N →
     operator_lt Z.eqb Z.ltb (of_list N [1; 2; 3]%Z) (of_list N [1; 2; 4]%Z) = Ok true ∧
     operator_lt Z.eqb Z.ltb (of_list N [1; 2]%Z) (of_list N [1; 2; 3]%Z) = Ok true ∧
     operator_lt Z.eqb Z.ltb (of_list N [1; 2; 3]%Z) (of_list N [1; 2]%Z) = Ok false ∧
     operator_eq Z.eqb (of_list N [1; 2; 3]%Z) (of_list N [1; 2; 3]%Z) = Ok true).
Proof.
  split.
  - intros T N T_eq T_lt a b Ha Hb.
    apply invariant_inv in Ha as (xs & Hxs & ->).
    apply invariant_inv in Hb as (ys & Hys & ->). norm_size.
    exists xs, ys. split_and!; [by apply contents_of_list..| | |].
    + by apply operator_eq_of_list.
    + apply spec_eq_true.
    + by apply operator_lt_of_list.
  - intros N HN.
    rewrite !operator_lt_of_list, !operator_eq_of_list by (simpl; lia). done.
Qed.

Lemma comparisons_follow_the_specification_witness :
  invariant 4 (of_list 4 [1; 2; 3]%Z) ∧ invariant 4 (of_list 4 [1; 2; 4]%Z) ∧
  ∃ xs ys, contents (of_list 4 [1; 2; 3]%Z) = Some xs ∧
    contents (of_list 4 [1; 2; 4]%Z) = Some ys ∧
    operator_eq Z.eqb (of_list 4 [1; 2; 3]%Z) (of_list 4 [1; 2; 4]%Z)
    = Ok (spec_eq Z.eqb xs ys) ∧
    (spec_eq Z.eqb xs ys = true ↔
     size (of_list 4 [1; 2; 3]%Z) = size (of_list 4 [1; 2; 4]%Z) ∧
     ∀ i x y, xs !! i = Some x → ys !! i = Some y → Z.eqb x y = true) ∧
    operator_lt Z.eqb Z.ltb (of_list 4 [1; 2; 3]%Z) (of_list 4 [1; 2; 4]%Z)
    = Ok (spec_lt Z.eqb Z.ltb xs ys) ∧
  3 ≤ 4 ∧
  operator_lt Z.eqb Z.ltb (of_list 4 [1; 2]%Z) (of_list 4 [1; 2; 3]%Z) = Ok true.
Proof.
  assert (Ha : invariant 4 (of_list 4 [1; 2; 3]%Z))
    by (apply invariant_of_list; simpl; lia).
  assert (Hb : invariant 4 (of_list 4 [1; 2; 4]%Z))
    by (apply invariant_of_list; simpl; lia).
  split_and!; [exact Ha|exact Hb|].
  destruct (proj1 comparisons_follow_the_specification Z 4 Z.eqb Z.ltb _ _ Ha Hb)
    as (xs & ys & H).
  destruct (proj2 comparisons_follow_the_specification 4 ltac:(lia))
    as (_ & Hlt & _).
  exists xs, ys. destruct H as (?&?&?&?&?).
  split_and!; try assumption. lia.
Defined.

(** C9.  Every constructor and every size-changing member, called within
    its precondition on objects that satisfy the invariant, leaves the
    invariant in place when it returns, never runs into undefined behaviour,
    and stops at an assertion only when the element count it asked for is
    the capacity itself; so every world a program can get to satisfies the
    invariant. *)
Theorem calls_keep_the_invariant :
  ∀ (T : Type) (N : nat) (T_default : T) (moved : T → T),
    (∀ (c : call) (w : @world T),
       world_invariant N w → precondition N c w →
       match run N T_default moved c w with
       | Ok w' => world_invariant N w'
       | AssertFail => fills_capacity N c w
       | UB => False
       end) ∧
    (∀ w : @world T, reachable N T_default moved w → world_invariant N w).
Proof.
  intros T N T_default moved.
  assert (Hstep : ∀ (c : call) (w : @world T),
             world_invariant N w → precondition N c w →
             match run N T_default moved c w with
             | Ok w' => world_invariant N w'
             | AssertFail => fills_capacity N c w
             | UB => False
             end) by (intros; by apply run_establishes).
  split; [exact Hstep|].
  induction 1 as [|c w w' Hreach IH Hpre Hrun].
  - split; apply invariant_ctor_default.
  - specialize (Hstep c w IH Hpre). by rewrite Hrun in Hstep.
Qed.

Lemma calls_keep_the_invariant_witness :
  world_invariant 4 (mk_world (of_list 4 [1; 2; 3]%Z) (of_list 4 [7]%Z)) ∧
  precondition 4 (Insert ObjB 0 [8; 9]%Z)
    (mk_world (of_list 4 [1; 2; 3]%Z) (of_list 4 [7]%Z)) ∧
  match run 4 0%Z id (Insert ObjB 0 [8; 9]%Z)
          (mk_world (of_list 4 [1; 2; 3]%Z) (of_list 4 [7]%Z)) with
  | Ok w' => world_invariant 4 w'
  | AssertFail => fills_capacity 4 (Insert ObjB 0 [8; 9]%Z)
                    (mk_world (of_list 4 [1; 2; 3]%Z) (of_list 4 [7]%Z))
  | UB => False
  end ∧
  reachable 4 0%Z id (mk_world (ctor_default 4) (ctor_default 4)) ∧
  world_invariant 4 (mk_world (@ctor_default Z 4) (ctor_default 4)).
Proof.
  assert (Hw : world_invariant 4 (mk_world (of_list 4 [1; 2; 3]%Z) (of_list 4 [7]%Z)))
    by (split; apply invariant_of_list; simpl; lia).
  assert (Hpre : precondition 4 (Insert ObjB 0 [8; 9]%Z)
                   (mk_world (of_list 4 [1; 2; 3]%Z) (of_list 4 [7]%Z)))
    by (vm_compute; lia).
  split_and!; [exact Hw|exact Hpre| |apply reachable_init|].
  - apply (proj1 (calls_keep_the_invariant Z 4 0%Z id) _ _ Hw Hpre).
  - apply (proj2 (calls_keep_the_invariant Z 4 0%Z id)), reachable_init.
Defined.

(** C10.  Copy assignment clears the destination, then assigns the
    source's range as it is after that: [a = a] leaves [a] empty, and
    between two distinct objects the destination ends with the source's
    elements in order (past the assertion of [insert], which wants the
    source's size below the capacity). *)
Theorem copy_assignment_clears_first :
  ∀ (T : Type) (N : nat) (T_default : T) (moved : T → T)
    (w : @world T) (this other : obj),
    0 < N → world_invariant N w →
    (operator_assign_copy N T_default moved w this this
     = Ok (set w this (of_list N [])) ∧
     size (of_list N (@nil T)) = 0) ∧
    (this ≠ other →
     operator_assign_copy N T_default moved w this other
     = if bool_decide (size (get w other) < capacity N (get w other))
       then Ok (set w this (get w other)) else AssertFail).
Proof.
  intros T N T_default moved w this other HN Hw.
  destruct (world_get_of_list N w this Hw) as (xs & Hxs & Hthis).
  destruct (world_get_of_list N w other Hw) as (ys & Hys & Hother).
  split; [split; [|done]|].
  - rewrite (operator_assign_copy_self N _ _ w this xs) by done.
    by rewrite bool_decide_true by done.
  - intros Hne.
    rewrite (operator_assign_copy_distinct N _ _ w this other xs ys) by done.
    rewrite Hother. by norm_size.
Qed.

Lemma copy_assignment_clears_first_witness :
  0 < 4 ∧
  world_invariant 4 (mk_world (of_list 4 [1; 2; 3]%Z) (of_list 4 [7]%Z)) ∧
  (operator_assign_copy 4 0%Z id
     (mk_world (of_list 4 [1; 2; 3]%Z) (of_list 4 [7]%Z)) ObjA ObjA
   = Ok (set (mk_world (of_list 4 [1; 2; 3]%Z) (of_list 4 [7]%Z)) ObjA (of_list 4 [])) ∧
   size (of_list 4 (@nil Z)) = 0) ∧
  (ObjA ≠ ObjA →
   operator_assign_copy 4 0%Z id
     (mk_world (of_list 4 [1; 2; 3]%Z) (of_list 4 [7]%Z)) ObjA ObjA
   = if bool_decide
          (size (get (mk_world (of_list 4 [1; 2; 3]%Z) (of_list 4 [7]%Z)) ObjA)
           < capacity 4 (get (mk_world (of_list 4 [1; 2; 3]%Z) (of_list 4 [7]%Z)) ObjA))
     then Ok (set (mk_world (of_list 4 [1; 2; 3]%Z) (of_list 4 [7]%Z)) ObjA
                  (get (mk_world (of_list 4 [1; 2; 3]%Z) (of_list 4 [7]%Z)) ObjA))
     else AssertFail).
Proof.
  assert (Hw : world_invariant 4 (mk_world (of_list 4 [1; 2; 3]%Z) (of_list 4 [7]%Z)))
    by (split; apply invariant_of_list; simpl; lia).
  split_and!; [lia|exact Hw|..];
    apply (copy_assignment_clears_first Z 4 0%Z id _ ObjA ObjA ltac:(lia) Hw).
Defined.

End container_specification.

Section adaptor_specification.
Import ReverseIterator.

(** C6.  Dereferencing the adaptor of [it] gives what dereferencing
    [prev(it)] gives.  On the positions of a sequence that is the element one
    slot before the wrapped position, which is not the element at the wrapped
    position (told apart in a sequence without repetitions); the adaptor of
    the one-past-the-last position of a non-empty sequence gives its last
    element. *)
Theorem reverse_dereferences_the_previous :
  (∀ (I E : Type) (HI : BidiIter I E) (it : I) (x : E),
     deref (std_prev it) = Some x →
     operator_star (make_reverse_iterator it) = Some x) ∧
  (∀ (E : Type) (S : list E) (i : Z) (x : E),
     deref (std_prev (mk_seq_pos S i)) = Some x →
     operator_star (make_reverse_iterator (mk_seq_pos S i)) = Some x ∧
     (1 ≤ i ≤ Z.of_nat (length S))%Z ∧
     S !! Z.to_nat (i - 1) = Some x ∧
     (NoDup S → deref (mk_seq_pos S i) ≠ Some x)) ∧
  (∀ (E : Type) (S : list E), S ≠ [] → operator_star (rbegin S) = last S).
Proof.
  split_and!.
  - intros I E HI it x Hx. exact Hx.
  - intros E S i x Hx. split; [exact Hx|].
    simpl in Hx. case_bool_decide as Hi; [|done].
    pose proof (lookup_lt_Some _ _ _ Hx) as Hlt. split_and!; [lia..|done|].
    intros Hnd. simpl. rewrite bool_decide_true by lia. intros Hx'.
    pose proof (NoDup_lookup _ _ _ _ Hnd Hx Hx'). lia.
  - intros E S HS. unfold operator_star, rbegin, std_prev. simpl.
    rewrite bool_decide_true by (destruct S; [done|simpl; lia]).
    rewrite last_lookup. f_equal. lia.
Qed.

Lemma reverse_dereferences_the_previous_witness :
  deref (std_prev (mk_seq_pos [10; 20; 30]%Z 3)) = Some 30%Z ∧
  operator_star (make_reverse_iterator (mk_seq_pos [10; 20; 30]%Z 3)) = Some 30%Z ∧
  (1 ≤ 3 ≤ Z.of_nat (length [10; 20; 30]%Z))%Z ∧
  [10; 20; 30]%Z !! Z.to_nat (3 - 1) = Some 30%Z ∧
  (NoDup [10; 20; 30]%Z → deref (mk_seq_pos [10; 20; 30]%Z 3) ≠ Some 30%Z) ∧
  [10; 20; 30]%Z ≠ [] ∧
  operator_star (rbegin [10; 20; 30]%Z) = last [10; 20; 30]%Z.
Proof.
  split; [reflexivity|].
  destruct (proj1 (proj2 reverse_dereferences_the_previous) Z [10; 20; 30]%Z 3%Z 30%Z)
    as (H1 & H2 & H3 & H4); [reflexivity|].
  split_and!; [exact H1|apply H2..|exact H3|exact H4|done|].
  apply (proj2 (proj2 reverse_dereferences_the_previous) Z [10; 20; 30]%Z). done.
Defined.

(** C7.  As the source is written, [operator+=] cannot be used. Its
    exception specification calls [std::advance] on
    [std::declval<BidiIter>()], an rvalue, and the first parameter of
    [std::advance] is a reference to a non-const lvalue; so a program that
    advances an adaptor, or steps it with [++] or [--], is ill-formed, and
    no traversal from [rbegin] to [rend] is translated.  The exception
    specification of [operator*] is well-formed, and so is the call in the
    body of [operator+=], where the argument is the lvalue [it_].

    The bodies do what is claimed.  [r += n] advances the wrapped position
    by [-n] for every [n] of [difference_type] but the least, where [-n]
    overflows, which is undefined behaviour; [r += 1] and [r += -1] are
    the steps of the adaptor.  Stepping so, from [rbegin] to [rend] the
    elements of the sequence are met in reverse order; the adaptor of the
    adaptor of [it] wraps [it] again, dereferences, steps and compares as
    [it] does, and from the twice-adapted [begin()] to the twice-adapted
    [end()] the sequence itself is met. *)
Theorem reverse_round_trip_and_its_exception_specification :
  (∀ (I E : Type) (HI : BidiIter I E) (w : nat) (r : reverse_iterator I) (n : Z),
     operator_plus_assign w r n = IllFormed ∧
     operator_increment w r = IllFormed ∧
     operator_decrement w r = IllFormed) ∧
  (operator_plus_assign_noexcept = false ∧
   operator_star_noexcept = true ∧
   call_well_formed std_advance_parameters [lvalue; prvalue] = true) ∧
  (∀ (I E : Type) (HI : BidiIter I E) (w : nat) (r : reverse_iterator I) (n : Z),
     (difference_min w < n ≤ difference_max w)%Z →
     operator_plus_assign_body w r n
     = Ok (make_reverse_iterator (std_advance (base_reference r) (- n)))) ∧
  (∀ (I E : Type) (HI : BidiIter I E) (w : nat) (r : reverse_iterator I),
     operator_plus_assign_body w r (difference_min w) = UB) ∧
  (∀ (I E : Type) (HI : BidiIter I E) (w : nat) (r : reverse_iterator I),
     2 ≤ w →
     operator_plus_assign_body w r 1 = Ok (incr r) ∧
     operator_plus_assign_body w r (-1) = Ok (decr r)) ∧
  (∀ (E : Type) (w : nat) (r r' : reverse_iterator (seq_pos E)) (n : Z),
     operator_plus_assign_body w r n = Ok r' →
     idx (base_reference r') = (idx (base_reference r) - n)%Z) ∧
  (∀ (E : Type) (S : list E) (fuel : nat),
     length S ≤ fuel → traverse fuel (rbegin S) (rend S) = Some (reverse S)) ∧
  (∀ (I E : Type) (HI : BidiIter I E), BidiIterLaws I E → ∀ it it' : I,
     base_reference (base_reference
       (make_reverse_iterator (make_reverse_iterator it))) = it ∧
     deref (make_reverse_iterator (make_reverse_iterator it)) = deref it ∧
     incr (make_reverse_iterator (make_reverse_iterator it))
     = make_reverse_iterator (make_reverse_iterator (incr it)) ∧
     decr (make_reverse_iterator (make_reverse_iterator it))
     = make_reverse_iterator (make_reverse_iterator (decr it)) ∧
     iter_eq (make_reverse_iterator (make_reverse_iterator it))
             (make_reverse_iterator (make_reverse_iterator it'))
     = iter_eq it it') ∧
  (∀ (E : Type) (S : list E) (fuel : nat),
     length S ≤ fuel →
     traverse fuel (make_reverse_iterator (rend S)) (make_reverse_iterator (rbegin S))
     = Some S).
Proof.
  split_and!.
  - done.
  - done.
  - done.
  - done.
  - intros I E HI w r n Hn. by apply plus_assign_body_in_range.
  - intros I E HI w r. unfold operator_plus_assign_body.
    by rewrite negate_least.
  - intros I E HI w r Hw.
    destruct (difference_type_has_one w Hw) as [Hmin Hmax].
    split; rewrite plus_assign_body_in_range by lia; done.
  - intros E w r r' n Hr. unfold operator_plus_assign_body, negate in Hr.
    case_bool_decide; [|done]. simpl in Hr. injection Hr as <-.
    unfold base_reference. simpl. rewrite seq_pos_advance. simpl. lia.
  - intros E S fuel Hfuel. unfold rbegin, seq_end.
    rewrite traverse_from by lia. by rewrite take_ge.
  - intros I E HI Hlaws it it'. split_and!; [done| |done..].
    apply double_reverse_deref.
  - intros E S fuel Hfuel.
    exact (traverse_double_from S (length S) 0 fuel eq_refl Hfuel).
Qed.

Lemma reverse_round_trip_and_its_exception_specification_witness :
  operator_plus_assign 64 (rbegin [1; 2; 3]%Z) 1 = IllFormed ∧
  operator_increment 64 (rbegin [1; 2; 3]%Z) = IllFormed ∧
  (difference_min 64 < 2 ≤ difference_max 64)%Z ∧
  operator_plus_assign_body 64 (rbegin [1; 2; 3]%Z) 2
  = Ok (make_reverse_iterator (mk_seq_pos [1; 2; 3]%Z 1)) ∧
  operator_plus_assign_body 64 (rbegin [1; 2; 3]%Z) (difference_min 64) = UB ∧
  2 ≤ 64 ∧
  operator_plus_assign_body 64 (rbegin [1; 2; 3]%Z) 1
  = Ok (incr (rbegin [1; 2; 3]%Z)) ∧
  length [1; 2; 3]%Z ≤ 3 ∧
  traverse 3 (rbegin [1; 2; 3]%Z) (rend [1; 2; 3]%Z) = Some (reverse [1; 2; 3]%Z) ∧
  BidiIterLaws (seq_pos Z) Z ∧
  deref (make_reverse_iterator (make_reverse_iterator (mk_seq_pos [1; 2; 3]%Z 1)))
  = deref (mk_seq_pos [1; 2; 3]%Z 1) ∧
  traverse 3 (make_reverse_iterator (rend [1; 2; 3]%Z))
             (make_reverse_iterator (rbegin [1; 2; 3]%Z))
  = Some [1; 2; 3]%Z.
Proof.
  pose proof reverse_round_trip_and_its_exception_specification
    as (Hill & _ & Hbody & Hleast & Hstep & _ & Htrav & Hdouble & Hback).
  assert (Hrange : (difference_min 64 < 2 ≤ difference_max 64)%Z)
    by (unfold difference_min, difference_max; simpl; lia).
  assert (Hw : 2 ≤ 64) by lia.
  assert (Hlen : length [1; 2; 3]%Z ≤ 3) by (simpl; lia).
  split; [apply (Hill (seq_pos Z) Z _ 64 (rbegin [1; 2; 3]%Z) 1%Z)|].
  split; [apply (Hill (seq_pos Z) Z _ 64 (rbegin [1; 2; 3]%Z) 1%Z)|].
  split; [exact Hrange|].
  split; [exact (Hbody (seq_pos Z) Z _ 64 (rbegin [1; 2; 3]%Z) 2%Z Hrange)|].
  split; [exact (Hleast (seq_pos Z) Z _ 64 (rbegin [1; 2; 3]%Z))|].
  split; [exact Hw|].
  split; [exact (proj1 (Hstep (seq_pos Z) Z _ 64 (rbegin [1; 2; 3]%Z) Hw))|].
  split; [exact Hlen|].
  split; [exact (Htrav Z [1; 2; 3]%Z 3 Hlen)|].
  split; [exact seq_pos_laws|].
  split; [|exact (Hback Z [1; 2; 3]%Z 3 Hlen)].
  apply (Hdouble (seq_pos Z) Z _ seq_pos_laws
           (mk_seq_pos [1; 2; 3]%Z 1) (mk_seq_pos [1; 2; 3]%Z 1)).
Defined.

End adaptor_specification.


(** * Further properties of the container *)

Section container_edges.
Import Storage StaticVector.
Context {T : Type} (N : nat) (T_default : T) (moved : T → T).
Implicit Types (v : @static_vector T) (xs ys : list T).

Opaque of_list.

Lemma emplace_back_full xs x :
  length xs = N → emplace_back (of_list N xs) x = UB.
Proof.
  intros HN. unfold emplace_back, emplace_construct, construct_at, end_.
  rewrite size_of_list, of_list_length by lia.
  by rewrite decide_False by lia.
Qed.

Lemma emplace_full xs pos x :
  length xs = N → pos ≤ length xs → emplace moved (of_list N xs) pos x = UB.
Proof.
  intros HN Hpos. unfold emplace, end_. rewrite size_of_list.
  case_bd (pos < length xs) Hlt.
  - destruct (lookup_lt_is_Some_2 xs (length xs - 1)) as [xb Hxb]; [lia|].
    rewrite (back_of_list N xs (length xs - 1) xb) by (done || lia). simpl.
    unfold emplace_back, emplace_construct, construct_at, end_. simpl.
    rewrite length_insert, of_list_length by lia.
    by rewrite decide_False by lia.
  - assert (pos = length xs) as -> by lia.
    unfold emplace_construct, construct_at. simpl.
    rewrite of_list_length by lia. by rewrite decide_False by lia.
Qed.

Lemma emplace_past_end xs pos x :
  length xs < pos → pos < N →
  emplace moved (of_list N xs) pos x
  = Ok (mk_static_vector (<[pos := Some x]> (buf_ (of_list N xs))) (S (length xs)), pos).
Proof.
  intros Hpos HN. unfold emplace, end_. rewrite size_of_list.
  rewrite bool_decide_false by lia. simpl.
  unfold emplace_construct, construct_at. rewrite of_list_length by lia.
  by rewrite decide_True by lia.
Qed.


Lemma emplace_then_erase xs pos x :
  length xs < N → pos ≤ length xs →
  ('(v', p) ← emplace moved (of_list N xs) pos x; erase moved v' p (S p))
  = Ok (of_list N xs, pos).
Proof.
  intros HN Hpos. rewrite (emplace_of_list N) by lia. simpl.
  rewrite (erase_of_list N) by list_lengths. do 2 f_equal.
  apply of_list_eq. intros i. lookup_solve.
Qed.


Lemma resize_then_shrink xs n m x y :
  length xs ≤ N → m ≤ n → n < N →
  (v1 ← resize N moved (of_list N xs) n x; resize N moved v1 m y)
  = resize N moved (of_list N xs) m x.
Proof.
  intros Hxs Hmn HN. rewrite !(resize_of_list N) by lia.
  rewrite !bool_decide_true by lia. simpl.
  rewrite (resize_of_list N) by list_lengths.
  rewrite bool_decide_true by lia. f_equal.
  apply of_list_eq. intros i. lookup_solve.
Qed.

(** A move assignment changes which values the slots hold, not which slots
    hold an object. *)
Lemma move_assign_keeps_live (b b' : list (option T)) s d :
  move_assign moved b s d = Ok b' → ∀ j, live b' j ↔ live b j.
Proof.
  unfold move_assign. intros Hmv j.
  destruct (b !! s) as [[x|]|] eqn:Hs; [|done..].
  destruct (b !! d) as [[y|]|] eqn:Hd; [|done..].
  injection Hmv as <-.
  pose proof (lookup_lt_Some _ _ _ Hs). pose proof (lookup_lt_Some _ _ _ Hd).
  unfold live. destruct (decide (j = d)) as [->|].
  { rewrite list_lookup_insert_eq by (by rewrite length_insert).
    rewrite Hd. split; eauto. }
  rewrite list_lookup_insert_ne by done.
  destruct (decide (j = s)) as [->|].
  { rewrite list_lookup_insert_eq by done. rewrite Hs. split; eauto. }
  by rewrite list_lookup_insert_ne.
Qed.

Lemma move_assign_target_dead (b : list (option T)) s d :
  ¬ live b d → move_assign moved b s d = UB.
Proof.
  intros Hd. unfold move_assign.
  destruct (b !! s) as [[x|]|]; [|done..].
  destruct (b !! d) as [[y|]|] eqn:E; [|done..].
  destruct Hd. by exists y.
Qed.

(** [std::move] onto a range with a slot that holds no object. *)
Lemma move_loop_target_dead n first d (b : list (option T)) i :
  i < n → ¬ live b (d + i) → move_loop moved n first d b = UB.
Proof.
  revert first d b i. induction n as [|n IH]; intros first d b i Hi Hdead; [lia|].
  simpl. destruct (move_assign moved b first d) as [b'| |] eqn:Hmv; simpl.
  - destruct i as [|i].
    + rewrite Nat.add_0_r in Hdead.
      by rewrite move_assign_target_dead in Hmv.
    + apply (IH _ _ _ i); [lia|].
      rewrite (move_assign_keeps_live _ _ _ _ Hmv).
      by replace (S d + i) with (d + S i) by lia.
  - unfold move_assign in Hmv. by repeat case_match.
  - done.
Qed.

Lemma of_list_dead xs i : length xs ≤ N → length xs ≤ i → ¬ live (buf_ (of_list N xs)) i.
Proof.
  intros HN Hi [x Hx]. rewrite (of_list_lookup N) in Hx by done.
  case_decide; [|done]. by rewrite lookup_ge_None_2 in Hx by lia.
Qed.

Lemma erase_out_of_range xs f last :
  length xs ≤ N → last < f ∨ length xs < last →
  erase moved (of_list N xs) f last = UB.
Proof.
  intros HN Hbad. unfold erase, cend, end_, std_move. rewrite size_of_list.
  case_decide as Hlast; [|done].
  destruct (decide (last = length xs)) as [->|Hne].
  - rewrite Nat.sub_diag. simpl. unfold destroy_range.
    by rewrite decide_False by lia.
  - rewrite (move_loop_target_dead _ _ _ _ (length xs - last - 1)); [done|lia|].
    apply of_list_dead; lia.
Qed.


Transparent of_list.
End container_edges.

(** ** Comparisons as an order *)

Section comparison_order.
Import StaticVector.
Context {T : Type} (T_eq T_lt : T → T → bool).
Hypothesis T_eq_spec : ∀ x y, T_eq x y = true ↔ x = y.
Hypothesis T_lt_irrefl : ∀ x, T_lt x x = false.
Hypothesis T_lt_trans : ∀ x y z, T_lt x y = true → T_lt y z = true → T_lt x z = true.
Hypothesis T_lt_total : ∀ x y, x ≠ y → T_lt x y = true ∨ T_lt y x = true.
Implicit Types xs ys zs : list T.

Lemma T_eq_refl x : T_eq x x = true.
Proof. by apply T_eq_spec. Qed.

Lemma T_eq_false x y : T_eq x y = false ↔ x ≠ y.
Proof. rewrite <- T_eq_spec. by destruct (T_eq x y). Qed.

Lemma spec_eq_iff xs ys : spec_eq T_eq xs ys = true ↔ xs = ys.
Proof.
  unfold spec_eq. rewrite andb_true_iff, bool_decide_eq_true. split.
  - intros [_ H]. revert ys H. induction xs as [|x xs IH]; intros [|y ys] H; try done.
    simpl in H. apply andb_true_iff in H as [Hxy H].
    apply T_eq_spec in Hxy as ->. f_equal. by apply IH.
  - intros <-. split; [done|]. induction xs as [|x xs IH]; [done|].
    simpl. by rewrite T_eq_refl.
Qed.

Lemma spec_lt_irrefl xs : spec_lt T_eq T_lt xs xs = false.
Proof. induction xs as [|x xs IH]; [done|]. simpl. by rewrite T_eq_refl. Qed.

Lemma spec_lt_trans xs ys zs :
  spec_lt T_eq T_lt xs ys = true → spec_lt T_eq T_lt ys zs = true →
  spec_lt T_eq T_lt xs zs = true.
Proof.
  revert ys zs. induction xs as [|x xs IH]; intros [|y ys] [|z zs]; try done.
  simpl. destruct (T_eq x y) eqn:Hxy, (T_eq y z) eqn:Hyz.
  - apply T_eq_spec in Hxy as ->. rewrite Hyz. apply IH.
  - apply T_eq_spec in Hxy as ->. rewrite Hyz. done.
  - apply T_eq_spec in Hyz as ->. rewrite Hxy. done.
  - intros Hlt1 Hlt2. destruct (T_eq x z) eqn:Hxz.
    + apply T_eq_spec in Hxz as ->.
      pose proof (T_lt_trans _ _ _ Hlt1 Hlt2) as H. by rewrite T_lt_irrefl in H.
    + by eapply T_lt_trans.
Qed.

Lemma spec_lt_total xs ys :
  xs ≠ ys → spec_lt T_eq T_lt xs ys = true ∨ spec_lt T_eq T_lt ys xs = true.
Proof.
  revert ys. induction xs as [|x xs IH]; intros [|y ys] Hne; try done; simpl; auto.
  destruct (T_eq x y) eqn:Hxy.
  - apply T_eq_spec in Hxy as ->. rewrite T_eq_refl. apply IH. congruence.
  - apply T_eq_false in Hxy.
    assert (T_eq y x = false) as -> by (apply T_eq_false; congruence).
    by apply T_lt_total.
Qed.

End comparison_order.


(** ** Every state that satisfies the invariant is within reach *)

Section reach.
Import StaticVector.
Context {T : Type} (N : nat) (T_default : T) (moved : T → T).
Implicit Types xs ys : list T.

Lemma reachable_first xs :
  length xs ≤ N →
  reachable N T_default moved (mk_world (of_list N xs) (ctor_default N)).
Proof.
  induction xs as [|x xs IH] using rev_ind; intros Hlen.
  { rewrite <- ctor_default_of_list. apply reachable_init. }
  rewrite length_app in Hlen. simpl in Hlen.
  apply (reachable_step N T_default moved (EmplaceBack ObjA x)
           (mk_world (of_list N xs) (ctor_default N))).
  - apply IH. lia.
  - simpl. unfold size, begin, end_. simpl. lia.
  - simpl. by rewrite (emplace_back_of_list N) by lia.
Qed.

Lemma reachable_both xs ys :
  length xs ≤ N → length ys ≤ N →
  reachable N T_default moved (mk_world (of_list N xs) (of_list N ys)).
Proof.
  intros Hxs. induction ys as [|y ys IH] using rev_ind; intros Hlen.
  { rewrite <- ctor_default_of_list. by apply reachable_first. }
  rewrite length_app in Hlen. simpl in Hlen.
  apply (reachable_step N T_default moved (EmplaceBack ObjB y)
           (mk_world (of_list N xs) (of_list N ys))).
  - apply IH. lia.
  - simpl. unfold size, begin, end_. simpl. lia.
  - simpl. by rewrite (emplace_back_of_list N) by lia.
Qed.

End reach.

(** ** The container, beyond its preconditions and in combination *)

Section container_properties.
Import Storage StaticVector.

(** X1.  [emplace] and [emplace_back] have no capacity check: on a full
    container they construct outside the buffer, which is undefined
    behaviour and never an assertion failure. *)
Theorem emplace_on_full_is_unchecked :
  ∀ (T : Type) (N : nat) (moved : T → T) (v : @static_vector T) (pos : nat) (x : T),
    invariant N v → size v = capacity N v → pos ≤ size v →
    emplace moved v pos x = UB ∧ emplace_back v x = UB.
Proof.
  intros T N moved v pos x Hinv Hfull Hpos.
  apply invariant_inv in Hinv as (xs & Hxs & ->). norm_size.
  split; [by apply emplace_full|by apply emplace_back_full].
Qed.

Lemma emplace_on_full_is_unchecked_witness :
  invariant 2 (of_list 2 [1; 2]%Z) ∧
  size (of_list 2 [1; 2]%Z) = capacity 2 (of_list 2 [1; 2]%Z) ∧
  1 ≤ size (of_list 2 [1; 2]%Z) ∧
  emplace id (of_list 2 [1; 2]%Z) 1 9%Z = UB ∧
  emplace_back (of_list 2 [1; 2]%Z) 9%Z = UB.
Proof.
  assert (Hinv : invariant 2 (of_list 2 [1; 2]%Z))
    by (apply invariant_of_list; simpl; lia).
  split_and!; [exact Hinv|reflexivity|vm_compute; lia|..];
    apply (emplace_on_full_is_unchecked Z 2 id _ 1 9%Z Hinv);
    (reflexivity || (vm_compute; lia)).
Defined.

(** X2.  [emplace] does not check its position: given a position past
    [end()] that is still inside the storage, it constructs there and
    counts one element more, so the slot at the old [end()] holds no object
    although the size covers it, and the invariant is lost. *)
Theorem emplace_past_end_loses_the_invariant :
  ∀ (T : Type) (N : nat) (moved : T → T) (v : @static_vector T) (pos : nat) (x : T),
    invariant N v → size v < pos → pos < capacity N v →
    ∃ v', emplace moved v pos x = Ok (v', pos) ∧
          size v' = S (size v) ∧
          buf_ v' !! size v = Some None ∧
          ¬ invariant N v'.
Proof.
  intros T N moved v pos x Hinv Hpos HN.
  apply invariant_inv in Hinv as (xs & Hxs & ->). norm_size.
  eexists. split; [by apply emplace_past_end|].
  assert (Hcell : (<[pos := Some x]> (buf_ (of_list N xs))) !! length xs = Some None).
  { rewrite list_lookup_insert_ne, of_list_lookup, decide_True by lia.
    by rewrite lookup_ge_None_2. }
  split_and!.
  - norm_size. done.
  - exact Hcell.
  - intros (_ & _ & Hcells). specialize (Hcells (length xs)).
    cbn [buf_ size_] in Hcells. rewrite Hcell in Hcells.
    destruct Hcells as [Hc _]; [lia|]. destruct Hc as [y Hy]; [lia|done].
Qed.

Lemma emplace_past_end_loses_the_invariant_witness :
  invariant 4 (of_list 4 [1]%Z) ∧ size (of_list 4 [1]%Z) < 2 ∧
  2 < capacity 4 (of_list 4 [1]%Z) ∧
  ∃ v', emplace id (of_list 4 [1]%Z) 2 9%Z = Ok (v', 2) ∧
        size v' = S (size (of_list 4 [1]%Z)) ∧
        buf_ v' !! size (of_list 4 [1]%Z) = Some None ∧
        ¬ invariant 4 v'.
Proof.
  assert (Hinv : invariant 4 (of_list 4 [1]%Z))
    by (apply invariant_of_list; simpl; lia).
  split_and!; [exact Hinv|vm_compute; lia|vm_compute; lia|].
  apply (emplace_past_end_loses_the_invariant Z 4 id _ 2 9%Z Hinv);
    vm_compute; lia.
Defined.

(** X3.  Erasing the one element that [emplace] has just placed, at the
    position it returned, gives the container back as it was. *)
Theorem emplace_erase_round_trip :
  ∀ (T : Type) (N : nat) (moved : T → T) (v : @static_vector T) (pos : nat) (x : T),
    invariant N v → size v < capacity N v → pos ≤ size v →
    ('(v', p) ← emplace moved v pos x; erase moved v' p (S p)) = Ok (v, pos).
Proof.
  intros T N moved v pos x Hinv Hsz Hpos.
  apply invariant_inv in Hinv as (xs & Hxs & ->). norm_size.
  by apply emplace_then_erase.
Qed.

Lemma emplace_erase_round_trip_witness :
  invariant 4 (of_list 4 [1; 2; 3]%Z) ∧
  size (of_list 4 [1; 2; 3]%Z) < capacity 4 (of_list 4 [1; 2; 3]%Z) ∧
  1 ≤ size (of_list 4 [1; 2; 3]%Z) ∧
  ('(v', p) ← emplace id (of_list 4 [1; 2; 3]%Z) 1 9%Z; erase id v' p (S p))
  = Ok (of_list 4 [1; 2; 3]%Z, 1).
Proof.
  assert (Hinv : invariant 4 (of_list 4 [1; 2; 3]%Z))
    by (apply invariant_of_list; simpl; lia).
  split_and!; [exact Hinv|vm_compute; lia|vm_compute; lia|].
  apply (emplace_erase_round_trip Z 4 id _ 1 9%Z Hinv); vm_compute; lia.
Defined.







(** X7.  Cutting a container after a [resize] is resizing it to the
    smaller size at once; in particular growing it and cutting it back to
    its size gives the container back as it was. *)
Theorem resize_then_cut :
  ∀ (T : Type) (N : nat) (moved : T → T) (v : @static_vector T) (n m : nat) (x y : T),
    invariant N v → m ≤ n → n < capacity N v →
    (v1 ← resize N moved v n x; resize N moved v1 m y) = resize N moved v m x ∧
    (m = size v → (v1 ← resize N moved v n x; resize N moved v1 m y) = Ok v).
Proof.
  intros T N moved v n m x y Hinv Hmn Hn.
  apply invariant_inv in Hinv as (xs & Hxs & ->). norm_size.
  rewrite resize_then_shrink by done. split; [done|].
  intros ->. rewrite resize_of_list by done.
  rewrite bool_decide_true by lia.
  by rewrite take_ge, Nat.sub_diag, app_nil_r by lia.
Qed.

Lemma resize_then_cut_witness :
  invariant 5 (of_list 5 [1; 2]%Z) ∧ 2 ≤ 4 ∧ 4 < capacity 5 (of_list 5 [1; 2]%Z) ∧
  (v1 ← resize 5 id (of_list 5 [1; 2]%Z) 4 7%Z; resize 5 id v1 2 8%Z)
  = Ok (of_list 5 [1; 2]%Z).
Proof.
  assert (Hinv : invariant 5 (of_list 5 [1; 2]%Z))
    by (apply invariant_of_list; simpl; lia).
  split_and!; [exact Hinv|lia|vm_compute; lia|].
  apply (resize_then_cut Z 5 id _ 4 2 7%Z 8%Z Hinv); [lia|vm_compute; lia|].
  reflexivity.
Defined.

(** X8.  [erase] validates neither position, and no assertion stands
    before its loops.  With [last] past [end()], the range from [last] to
    [end()] that it hands to [std::move] starts after its end.  With [last]
    before [first], the elements from [last] on are assigned to slots at
    or past [end()], which hold no object, or, when [last] is [end()], the
    destructor loop starts past [end()].  Each of these is undefined
    behaviour: the call has no defined result, and it is not an assertion
    failure. *)
Theorem erase_out_of_range_is_unchecked :
  ∀ (T : Type) (N : nat) (moved : T → T) (v : @static_vector T) (f last : nat),
    invariant N v → last < f ∨ size v < last →
    erase moved v f last = UB.
Proof.
  intros T N moved v f last Hinv Hbad.
  apply invariant_inv in Hinv as (xs & Hxs & ->). norm_size.
  by apply (erase_out_of_range N).
Qed.

Lemma erase_out_of_range_is_unchecked_witness :
  invariant 4 (of_list 4 [1; 2; 3]%Z) ∧
  (1 < 2 ∨ size (of_list 4 [1; 2; 3]%Z) < 1) ∧
  erase id (of_list 4 [1; 2; 3]%Z) 2 1 = UB.
Proof.
  assert (Hinv : invariant 4 (of_list 4 [1; 2; 3]%Z))
    by (apply invariant_of_list; simpl; lia).
  split_and!; [exact Hinv|left; lia|].
  apply (erase_out_of_range_is_unchecked Z 4 id _ 2 1 Hinv). left. lia.
Defined.



End container_properties.

Section whole_container_properties.
Import Storage StaticVector.

(** X10.  The move constructor takes over every element of a source that
    satisfies the invariant, a full one too, and leaves the source empty
    with no object in any slot; it has no assertion to trip. *)
Theorem move_constructor_takes_all :
  ∀ (T : Type) (N : nat) (moved : T → T) (other : @static_vector T),
    invariant N other →
    ∃ xs, contents other = Some xs ∧
      ctor_move N moved other = Ok (of_list N xs, of_list N []) ∧
      of_list N xs = other ∧ of_list N (@nil T) = ctor_default N.
Proof.
  intros T N moved other Hinv.
  apply invariant_inv in Hinv as (xs & Hxs & ->).
  exists xs. split_and!; [by apply contents_of_list|by apply ctor_move_eq|done|].
  symmetry. apply ctor_default_of_list.
Qed.

Lemma move_constructor_takes_all_witness :
  invariant 2 (of_list 2 [1; 2]%Z) ∧
  ∃ xs, contents (of_list 2 [1; 2]%Z) = Some xs ∧
    ctor_move 2 id (of_list 2 [1; 2]%Z) = Ok (of_list 2 xs, of_list 2 []) ∧
    of_list 2 xs = of_list 2 [1; 2]%Z ∧ of_list 2 (@nil Z) = ctor_default 2.
Proof.
  assert (Hinv : invariant 2 (of_list 2 [1; 2]%Z))
    by (apply invariant_of_list; simpl; lia).
  split; [exact Hinv|].
  apply (move_constructor_takes_all Z 2 id _ Hinv).
Defined.

(** X11.  Move assignment between two distinct objects gives the
    destination the state of the source and leaves the source empty, also
    when the source is full; [a = std::move(a)] leaves [a] empty. *)
Theorem move_assignment_takes_all :
  ∀ (T : Type) (N : nat) (moved : T → T) (w : @world T) (this other : obj),
    world_invariant N w →
    operator_assign_move moved w this other
    = Ok (if decide (this = other) then set w this (of_list N [])
          else set (set w this (get w other)) other (of_list N [])).
Proof.
  intros T N moved w this other Hw.
  destruct (world_get_of_list N w this Hw) as (xs & Hxs & Hthis).
  destruct (world_get_of_list N w other Hw) as (ys & Hys & Hother).
  case_decide as Heq.
  - subst other. by apply (operator_assign_move_self N moved w this xs).
  - rewrite Hother.
    by apply (operator_assign_move_distinct N moved w this other xs ys).
Qed.

Lemma move_assignment_takes_all_witness :
  world_invariant 2 (mk_world (of_list 2 [7]%Z) (of_list 2 [1; 2]%Z)) ∧
  operator_assign_move id (mk_world (of_list 2 [7]%Z) (of_list 2 [1; 2]%Z)) ObjA ObjB
  = Ok (mk_world (of_list 2 [1; 2]%Z) (of_list 2 [])).
Proof.
  assert (Hw : world_invariant 2 (mk_world (of_list 2 [7]%Z) (of_list 2 [1; 2]%Z)))
    by (split; apply invariant_of_list; simpl; lia).
  split; [exact Hw|].
  apply (move_assignment_takes_all Z 2 id _ ObjA ObjB Hw).
Defined.


(** X13.  [a.swap(b)] and [b.swap(a)] do the same: both return the same
    two states, or both trip the assertion. *)
Theorem swap_is_symmetric :
  ∀ (T : Type) (N : nat) (T_default : T) (moved : T → T)
    (w : @world T) (this other : obj),
    world_invariant N w →
    swap N T_default moved w this other = swap N T_default moved w other this.
Proof.
  intros T N T_default moved w this other Hw.
  destruct (decide (this = other)) as [->|Hne]; [done|].
  destruct (world_get_of_list N w this Hw) as (xs & Hxs & Hthis).
  destruct (world_get_of_list N w other Hw) as (ys & Hys & Hother).
  rewrite (swap_of_list N _ _ w this other xs ys) by done.
  rewrite (swap_of_list N _ _ w other this ys xs) by done.
  rewrite (Nat.min_comm (length ys)).
  case_bool_decide; [|done]. f_equal. destruct this, other; done.
Qed.

Lemma swap_is_symmetric_witness :
  world_invariant 3 (mk_world (of_list 3 [1; 2; 3]%Z) (of_list 3 [4]%Z)) ∧
  swap 3 0%Z id (mk_world (of_list 3 [1; 2; 3]%Z) (of_list 3 [4]%Z)) ObjA ObjB
  = swap 3 0%Z id (mk_world (of_list 3 [1; 2; 3]%Z) (of_list 3 [4]%Z)) ObjB ObjA.
Proof.
  assert (Hw : world_invariant 3 (mk_world (of_list 3 [1; 2; 3]%Z) (of_list 3 [4]%Z)))
    by (split; apply invariant_of_list; simpl; lia).
  split; [exact Hw|].
  apply (swap_is_symmetric Z 3 0%Z id _ ObjA ObjB Hw).
Defined.

(** X14.  [a.swap(a)] leaves [a] as it is, unless [a] is full: then the
    [resize] at the end of [swap] trips its assertion. *)
Theorem swap_with_itself :
  ∀ (T : Type) (N : nat) (T_default : T) (moved : T → T) (w : @world T) (o : obj),
    world_invariant N w →
    swap N T_default moved w o o
    = if bool_decide (size (get w o) < capacity N (get w o)) then Ok w
      else AssertFail.
Proof.
  intros T N T_default moved w o Hw.
  destruct (world_get_of_list N w o Hw) as (xs & Hxs & Hget).
  rewrite (swap_self N _ _ w o xs), Hget by done. by norm_size.
Qed.

Lemma swap_with_itself_witness :
  world_invariant 2 (mk_world (of_list 2 [1; 2]%Z) (of_list 2 [4]%Z)) ∧
  swap 2 0%Z id (mk_world (of_list 2 [1; 2]%Z) (of_list 2 [4]%Z)) ObjA ObjA
  = AssertFail ∧
  swap 2 0%Z id (mk_world (of_list 2 [1; 2]%Z) (of_list 2 [4]%Z)) ObjB ObjB
  = Ok (mk_world (of_list 2 [1; 2]%Z) (of_list 2 [4]%Z)).
Proof.
  assert (Hw : world_invariant 2 (mk_world (of_list 2 [1; 2]%Z) (of_list 2 [4]%Z)))
    by (split; apply invariant_of_list; simpl; lia).
  split_and!; [exact Hw|..].
  - apply (swap_with_itself Z 2 0%Z id _ ObjA Hw).
  - apply (swap_with_itself Z 2 0%Z id _ ObjB Hw).
Defined.

(** X15.  The states a program can get to are exactly the ones that
    satisfy the invariant: every content of up to [N] elements, a full one
    too, is built from a default-constructed container by [emplace_back]. *)
Theorem reachable_is_invariant :
  ∀ (T : Type) (N : nat) (T_default : T) (moved : T → T) (w : @world T),
    reachable N T_default moved w ↔ world_invariant N w.
Proof.
  intros T N T_default moved w. split.
  - induction 1 as [|c w w' Hreach IH Hpre Hrun].
    + split; apply invariant_ctor_default.
    + pose proof (run_establishes N T_default moved c w IH Hpre) as Hstep.
      by rewrite Hrun in Hstep.
  - intros [Ha Hb]. destruct w as [a b]. simpl in *.
    apply invariant_inv in Ha as (xs & Hxs & ->).
    apply invariant_inv in Hb as (ys & Hys & ->).
    by apply reachable_both.
Qed.

End whole_container_properties.

Section comparison_properties.
Import Storage StaticVector.

(** X16.  With an element [==] that holds exactly of equal elements,
    [operator==] of two containers that satisfy the invariant returns, and
    returns [true] exactly when both hold the same elements in the same
    order, which is when both are in the same state. *)
Theorem equality_decides_the_contents :
  ∀ (T : Type) (N : nat) (T_eq : T → T → bool) (a b : @static_vector T),
    (∀ x y, T_eq x y = true ↔ x = y) →
    invariant N a → invariant N b →
    ∃ r, operator_eq T_eq a b = Ok r ∧
         (r = true ↔ contents a = contents b) ∧ (r = true ↔ a = b).
Proof.
  intros T N T_eq a b Heq Ha Hb.
  apply invariant_inv in Ha as (xs & Hxs & ->).
  apply invariant_inv in Hb as (ys & Hys & ->).
  exists (spec_eq T_eq xs ys). rewrite operator_eq_of_list by done.
  rewrite !contents_of_list by done. rewrite (spec_eq_iff T_eq Heq).
  split_and!; [done|split; congruence|]. split; [congruence|].
  intros Hab. apply (f_equal contents) in Hab.
  rewrite !contents_of_list in Hab by done. congruence.
Qed.

Lemma equality_decides_the_contents_witness :
  (∀ x y, Z.eqb x y = true ↔ x = y) ∧
  invariant 3 (of_list 3 [1; 2]%Z) ∧ invariant 3 (of_list 3 [1; 3]%Z) ∧
  ∃ r, operator_eq Z.eqb (of_list 3 [1; 2]%Z) (of_list 3 [1; 3]%Z) = Ok r ∧
       (r = true ↔ contents (of_list 3 [1; 2]%Z) = contents (of_list 3 [1; 3]%Z)) ∧
       (r = true ↔ of_list 3 [1; 2]%Z = of_list 3 [1; 3]%Z).
Proof.
  assert (Ha : invariant 3 (of_list 3 [1; 2]%Z))
    by (apply invariant_of_list; simpl; lia).
  assert (Hb : invariant 3 (of_list 3 [1; 3]%Z))
    by (apply invariant_of_list; simpl; lia).
  split_and!; [exact Z.eqb_eq|exact Ha|exact Hb|].
  apply (equality_decides_the_contents Z 3 Z.eqb _ _ Z.eqb_eq Ha Hb).
Defined.

(** X17.  With an element [==] that holds exactly of equal elements and an
    element [<] that is a strict total order, [operator<] is a strict total
    order on the containers that satisfy the invariant: no container is
    less than itself, [a < b] and [b < c] give [a < c], and of two
    containers in different states one is less than the other. *)
Theorem less_is_a_strict_total_order :
  ∀ (T : Type) (N : nat) (T_eq T_lt : T → T → bool),
    (∀ x y, T_eq x y = true ↔ x = y) →
    (∀ x, T_lt x x = false) →
    (∀ x y z, T_lt x y = true → T_lt y z = true → T_lt x z = true) →
    (∀ x y, x ≠ y → T_lt x y = true ∨ T_lt y x = true) →
    ∀ a b c : @static_vector T,
      invariant N a → invariant N b → invariant N c →
      operator_lt T_eq T_lt a a = Ok false ∧
      (operator_lt T_eq T_lt a b = Ok true →
       operator_lt T_eq T_lt b c = Ok true →
       operator_lt T_eq T_lt a c = Ok true) ∧
      (operator_lt T_eq T_lt a b = Ok true →
       operator_lt T_eq T_lt b a = Ok false) ∧
      (a ≠ b →
       operator_lt T_eq T_lt a b = Ok true ∨ operator_lt T_eq T_lt b a = Ok true).
Proof.
  intros T N T_eq T_lt Heq Hirr Htrans Htotal a b c Ha Hb Hc.
  apply invariant_inv in Ha as (xs & Hxs & ->).
  apply invariant_inv in Hb as (ys & Hys & ->).
  apply invariant_inv in Hc as (zs & Hzs & ->).
  rewrite !operator_lt_of_list by done.
  pose proof (spec_lt_irrefl T_eq T_lt Heq) as Hsirr.
  pose proof (spec_lt_trans T_eq T_lt Heq Hirr Htrans) as Hstrans.
  split_and!.
  - by rewrite Hsirr.
  - intros [= Hab] [= Hbc]. by rewrite (Hstrans _ _ _ Hab Hbc).
  - intros [= Hab]. destruct (spec_lt T_eq T_lt ys xs) eqn:Hba; [|done].
    pose proof (Hstrans _ _ _ Hab Hba) as Haa. by rewrite Hsirr in Haa.
  - intros Hne.
    destruct (spec_lt_total T_eq T_lt Heq Htotal xs ys) as [->| ->];
      [congruence|by left|by right].
Qed.

Lemma less_is_a_strict_total_order_witness :
  invariant 3 (of_list 3 [1]%Z) ∧ invariant 3 (of_list 3 [1; 2]%Z) ∧
  invariant 3 (of_list 3 [2]%Z) ∧
  operator_lt Z.eqb Z.ltb (of_list 3 [1]%Z) (of_list 3 [1; 2]%Z) = Ok true ∧
  operator_lt Z.eqb Z.ltb (of_list 3 [1; 2]%Z) (of_list 3 [2]%Z) = Ok true ∧
  operator_lt Z.eqb Z.ltb (of_list 3 [1]%Z) (of_list 3 [2]%Z) = Ok true ∧
  operator_lt Z.eqb Z.ltb (of_list 3 [1; 2]%Z) (of_list 3 [1]%Z) = Ok false.
Proof.
  assert (Ha : invariant 3 (of_list 3 [1]%Z))
    by (apply invariant_of_list; simpl; lia).
  assert (Hb : invariant 3 (of_list 3 [1; 2]%Z))
    by (apply invariant_of_list; simpl; lia).
  assert (Hc : invariant 3 (of_list 3 [2]%Z))
    by (apply invariant_of_list; simpl; lia).
  assert (Htrans : ∀ x y z : Z,
            Z.ltb x y = true → Z.ltb y z = true → Z.ltb x z = true)
    by (intros x y z; rewrite !Z.ltb_lt; lia).
  assert (Htotal : ∀ x y : Z, x ≠ y → Z.ltb x y = true ∨ Z.ltb y x = true)
    by (intros x y; rewrite !Z.ltb_lt; lia).
  destruct (less_is_a_strict_total_order Z 3 Z.eqb Z.ltb
              Z.eqb_eq Z.ltb_irrefl Htrans Htotal _ _ _ Ha Hb Hc)
    as (_ & H2 & H3 & _).
  assert (Hab : operator_lt Z.eqb Z.ltb (of_list 3 [1]%Z) (of_list 3 [1; 2]%Z)
                = Ok true) by reflexivity.
  assert (Hbc : operator_lt Z.eqb Z.ltb (of_list 3 [1; 2]%Z) (of_list 3 [2]%Z)
                = Ok true) by reflexivity.
  split_and!; [exact Ha|exact Hb|exact Hc|exact Hab|exact Hbc| |].
  - exact (H2 Hab Hbc).
  - exact (H3 Hab).
Defined.

(** X18.  With a reflexive element [==], a container is less than every
    container that holds its elements followed by at least one more, and
    is not less than one that holds only a front part of its elements:
    [std::mismatch] stops at the end of the shorter one. *)
Theorem front_part_is_less :
  ∀ (T : Type) (N : nat) (T_eq T_lt : T → T → bool) (xs ys : list T),
    (∀ x, T_eq x x = true) →
    length (xs ++ ys) ≤ N →
    operator_lt T_eq T_lt (of_list N xs) (of_list N (xs ++ ys))
    = Ok (bool_decide (ys ≠ [])) ∧
    operator_lt T_eq T_lt (of_list N (xs ++ ys)) (of_list N xs) = Ok false.
Proof.
  intros T N T_eq T_lt xs ys Hrefl Hlen.
  rewrite length_app in Hlen.
  rewrite !operator_lt_of_list by (rewrite ?length_app; lia).
  split; f_equal.
  - induction xs as [|x xs IH]; simpl.
    + by destruct ys.
    + rewrite Hrefl. apply IH. simpl in Hlen. lia.
  - induction xs as [|x xs IH]; simpl.
    + by destruct ys.
    + rewrite Hrefl. apply IH. simpl in Hlen. lia.
Qed.

Lemma front_part_is_less_witness :
  (∀ x, Z.eqb x x = true) ∧ length ([1; 2] ++ [0])%Z ≤ 3 ∧
  operator_lt Z.eqb Z.ltb (of_list 3 [1; 2]%Z) (of_list 3 ([1; 2] ++ [0])%Z)
  = Ok (bool_decide ([0]%Z ≠ [])) ∧
  operator_lt Z.eqb Z.ltb (of_list 3 ([1; 2] ++ [0])%Z) (of_list 3 [1; 2]%Z)
  = Ok false.
Proof.
  assert (Hlen : length ([1; 2] ++ [0])%Z ≤ 3) by (simpl; lia).
  split_and!; [exact Z.eqb_refl|exact Hlen|..];
    apply (front_part_is_less Z 3 Z.eqb Z.ltb [1; 2]%Z [0]%Z Z.eqb_refl Hlen).
Defined.

End comparison_properties.


Section exchange_properties.
Import Storage StaticVector.

(** X22.  A [swap] that returns is undone by the same [swap]: the second
    one returns too and gives back the states before the first. *)
Theorem swap_twice_restores :
  ∀ (T : Type) (N : nat) (T_default : T) (moved : T → T)
    (w w' : @world T) (this other : obj),
    world_invariant N w →
    swap N T_default moved w this other = Ok w' →
    swap N T_default moved w' this other = Ok w.
Proof.
  intros T N T_default moved w w' this other Hw Hswap.
  destruct (world_get_of_list N w this Hw) as (xs & Hxs & Hthis).
  destruct (world_get_of_list N w other Hw) as (ys & Hys & Hother).
  destruct (decide (this = other)) as [->|Hne].
  - rewrite (swap_self N _ _ w other xs) in Hswap by done.
    destruct (decide (length xs < N)) as [Hlt|Hlt].
    + rewrite bool_decide_true in Hswap by done. injection Hswap as <-.
      rewrite (swap_self N _ _ w other xs) by done.
      by rewrite bool_decide_true.
    + by rewrite bool_decide_false in Hswap.
  - rewrite (swap_of_list N _ _ w this other xs ys) in Hswap by done.
    destruct (decide (length xs `min` length ys < N)) as [Hlt|Hlt].
    + rewrite bool_decide_true in Hswap by done. injection Hswap as <-.
      rewrite (swap_of_list N _ _ _ this other ys xs); [|done..| |].
      * rewrite bool_decide_true by lia. f_equal.
        destruct w, this, other; simpl in *; congruence.
      * destruct this, other; done.
      * destruct this, other; done.
    + by rewrite bool_decide_false in Hswap.
Qed.

Lemma swap_twice_restores_witness :
  world_invariant 3 (mk_world (of_list 3 [1; 2; 3]%Z) (of_list 3 [4]%Z)) ∧
  swap 3 0%Z id (mk_world (of_list 3 [1; 2; 3]%Z) (of_list 3 [4]%Z)) ObjA ObjB
  = Ok (mk_world (of_list 3 [4]%Z) (of_list 3 [1; 2; 3]%Z)) ∧
  swap 3 0%Z id (mk_world (of_list 3 [4]%Z) (of_list 3 [1; 2; 3]%Z)) ObjA ObjB
  = Ok (mk_world (of_list 3 [1; 2; 3]%Z) (of_list 3 [4]%Z)).
Proof.
  assert (Hw : world_invariant 3 (mk_world (of_list 3 [1; 2; 3]%Z) (of_list 3 [4]%Z)))
    by (split; apply invariant_of_list; simpl; lia).
  assert (Hswap : swap 3 0%Z id (mk_world (of_list 3 [1; 2; 3]%Z) (of_list 3 [4]%Z))
                    ObjA ObjB
                  = Ok (mk_world (of_list 3 [4]%Z) (of_list 3 [1; 2; 3]%Z)))
    by reflexivity.
  split_and!; [exact Hw|exact Hswap|].
  apply (swap_twice_restores Z 3 0%Z id _ _ ObjA ObjB Hw Hswap).
Defined.

End exchange_properties.
